(** * Character-level sentence segmentation: label codec and feature extractor

    A shallow embedding of [sentence-segmentation.py]: the feature extractor
    ([char2features], [sent2features]), the label codec ([text2labels],
    [text2sentences]) and the dataset builder ([get_train_data]), followed by
    the properties the design document states about them. *)

From Stdlib Require Import ZArith NArith Ascii String Lia.
From stdpp Require Import base decidable option numbers list.

Local Open Scope nat_scope.

(** ** Python values *)

(** A Python [str] is a sequence of Unicode code points; a character is the
    code point itself, and a one-character string is a singleton list. *)
Abbreviation char := N (only parsing).
Abbreviation str := (list N) (only parsing).

(** Source literals are written as UTF-8 text and decoded to code points. *)
Module Utf8.

Definition cont (acc b : N) : N := N.lor (N.shiftl acc 6) (N.land b 63).

Fixpoint decode (bs : list N) : str :=
  match bs with
  | [] => []
  | b :: bs1 =>
    if (b <? 128)%N then b :: decode bs1
    else match bs1 with
    | [] => []
    | c1 :: bs2 =>
      if (b <? 224)%N then cont (N.land b 31) c1 :: decode bs2
      else match bs2 with
      | [] => []
      | c2 :: bs3 =>
        if (b <? 240)%N then cont (cont (N.land b 15) c1) c2 :: decode bs3
        else match bs3 with
        | [] => []
        | c3 :: bs4 => cont (cont (cont (N.land b 7) c1) c2) c3 :: decode bs4
        end
      end
    end
  end.

Fixpoint bytes (s : string) : list N :=
  match s with
  | EmptyString => []
  | String a s' => N_of_ascii a :: bytes s'
  end.

End Utf8.

Definition u (s : string) : str := Utf8.decode (Utf8.bytes s).

(** The exceptions of interest.  [ValueError], [IndexError] and [NameError]
    are the built-in ones the code can raise; [MissingSentenceError] and
    [LengthMismatchError] are the error kinds the design document names. *)
Inductive exn : Set :=
  | ValueError
  | IndexError
  | NameError
  | MissingSentenceError
  | LengthMismatchError.

Inductive result (A : Type) : Type :=
  | Ok (a : A)
  | Raise (e : exn).
Arguments Ok {A} a.
Arguments Raise {A} e.

#[global] Instance exn_eq_dec : EqDecision exn.
Proof. solve_decision. Defined.

#[global] Instance result_ret : MRet result := fun _ a => Ok a.
#[global] Instance result_bind : MBind result := fun _ _ f m =>
  match m with
  | Ok a => f a
  | Raise e => Raise e
  end.

(** [seq[i]] for a non-negative index. *)
Definition getitem {A} (l : list A) (i : nat) : result A :=
  match l !! i with
  | Some x => Ok x
  | None => Raise IndexError
  end.

(** [[f(x) for x in l]]: evaluated left to right, the first exception
    aborts the comprehension. *)
Fixpoint comprehension {A B} (f : A → result B) (l : list A) : result (list B) :=
  match l with
  | [] => Ok []
  | x :: l' => y ← f x; ys ← comprehension f l'; Ok (y :: ys)
  end.

(** Iterating over a [str] yields its one-character strings. *)
Definition chars (s : str) : list str := (λ c, [c]) <$> s.

(** [a[start:finish] = v] for [0 <= start], [0 <= finish]: both bounds are
    clamped to the length, and an inverted slice is empty at [start]. *)
Definition setslice {A} (l : list A) (start finish : nat) (v : list A) : list A :=
  take start l ++ v ++ drop (start `max` finish) l.

(** [text.startswith(sub)]. *)
Fixpoint startswith (sub text : str) : bool :=
  match sub, text with
  | [], _ => true
  | _ :: _, [] => false
  | a :: sub', b :: text' => bool_decide (a = b) && startswith sub' text'
  end.

(** [text.find(sub)]: the lowest index at which [sub] occurs. *)
Fixpoint find (text sub : str) : option nat :=
  if startswith sub text then Some 0
  else match text with
       | [] => None
       | _ :: text' => S <$> find text' sub
       end.

(** [text.index(sub)]: like [find], but raises [ValueError] when absent. *)
Definition index (text sub : str) : result nat :=
  match find text sub with
  | Some i => Ok i
  | None => Raise ValueError
  end.

(** ** Feature extractor *)

Section Features.

(** The Unicode character database behind [str.lower], [str.isupper] and
    [str.isnumeric]; lower-casing one character may give several. *)
Variable lower : char → str.
Variable isupper : char → bool.
Variable isnumeric : char → bool.

(** ['{0}'.format(b)] for a boolean. *)
Definition format_bool (b : bool) : str := if b then u "True" else u "False".

(** The three tokens of one character, under an offset marker. *)
Definition tokens (offset : str) (c : char) : list str :=
  [ offset ++ u "lower=" ++ lower c;
    offset ++ u "isupper=" ++ format_bool (isupper c);
    offset ++ u "isnumeric=" ++ format_bool (isnumeric c) ].

Definition char2features (sentence : str) (i : nat) : result (list str) :=
  c ← getitem sentence i;
  let features := tokens [] c in
  features ←
    (if 0 <? i then
       c ← getitem sentence (i - 1); Ok (features ++ tokens (u "-1:") c)
     else Ok features);
  features ←
    (if 1 <? i then
       c ← getitem sentence (i - 2); Ok (features ++ tokens (u "-2:") c)
     else Ok features);
  features ←
    (if (Z.of_nat i <? Z.of_nat (length sentence) - 1)%Z then
       c ← getitem sentence (i + 1); Ok (features ++ tokens (u "+1:") c)
     else Ok features);
  features ←
    (if (Z.of_nat i <? Z.of_nat (length sentence) - 2)%Z then
       c ← getitem sentence (i + 2); Ok (features ++ tokens (u "+2:") c)
     else Ok features);
  Ok features.

Definition sent2features (sent : str) : result (list (list str)) :=
  comprehension (char2features sent) (seq 0 (length sent)).

End Features.

(** ** Label codec *)

Definition IN_SENTENCE : str := u "0".
Definition BOUNDARY : str := u "1".

(** The first loop of [text2labels]: each sentence is looked up from the
    start of [text] and its span is overwritten with ['0'] labels. *)
Fixpoint mark_sents (text : str) (sents : list str) (labels : list str)
  : result (list str) :=
  match sents with
  | [] => Ok labels
  | sent :: sents' =>
    start ← index text sent;
    let finish := start + length sent in
    mark_sents text sents'
      (setslice labels start finish (chars (replicate (length sent) 48%N)))
  end.

(** The second loop: [enumerate(labels)] reads the list it updates. *)
Definition finalize_step (labels : list str) (i : nat) : list str :=
  match labels !! i with
  | Some c => if bool_decide (c ≠ IN_SENTENCE) then <[i := BOUNDARY]> labels else labels
  | None => labels
  end.

Definition finalize (labels : list str) : list str :=
  foldl finalize_step labels (seq 0 (length labels)).

Definition text2labels (text : str) (sents : list str) : result (list str) :=
  let labels := chars text in
  labels ← mark_sents text sents labels;
  Ok (finalize labels).

(** A generator run to exhaustion: the values it yields, in order, and the
    exception that ended it, if any. *)
Definition generated (A : Type) : Type := list A * option exn.

(** [if sentence: yield sentence] *)
Definition flush (sentence : str) : list str :=
  match sentence with
  | [] => []
  | _ :: _ => [sentence]
  end.

Fixpoint sentences_loop (text : str) (i : nat) (labels : list str) (sentence : str)
  : generated str :=
  match labels with
  | [] => (flush sentence, None)
  | label :: labels' =>
    if bool_decide (label = BOUNDARY) then
      let rest := sentences_loop text (S i) labels' [] in
      (flush sentence ++ rest.1, rest.2)
    else
      match text !! i with
      | Some c => sentences_loop text (S i) labels' (sentence ++ [c])
      | None => ([], Some IndexError)
      end
  end.

Definition text2sentences (text : str) (labels : list str) : generated str :=
  sentences_loop text 0 labels [].

(** [decode(text, encode(text, sentences))] *)
Definition roundtrip (text : str) (sents : list str) : result (generated str) :=
  labels ← text2labels text sents; Ok (text2sentences text labels).

(** ** Dataset builder *)

(** What the corpus collaborator exposes of a document: [document.raw()]
    and [document.raw_sents()]. *)
Record document : Type := Document { raw : str; raw_sents : list str }.

Abbreviation feature_seq := (list (list str)) (only parsing).
Abbreviation label_seq := (list str) (only parsing).

Section Builder.

Variable lower : char → str.
Variable isupper : char → bool.
Variable isnumeric : char → bool.

(** The keyword arguments passed through to the partition. *)
Variable kwargs_t : Type.

Definition split : Type :=
  list feature_seq * list feature_seq * list label_seq * list label_seq.

(** A callable of the shape [train_test_split(X, y, **kwargs)]. *)
Definition splitter : Type :=
  list feature_seq → list label_seq → kwargs_t → result split.

(** The [for document in tqdm.tqdm(documents)] loop, threading [X] and [y]. *)
Fixpoint documents_loop (documents : list document)
    (X : list feature_seq) (y : list label_seq)
  : result (list feature_seq * list label_seq) :=
  match documents with
  | [] => Ok (X, y)
  | document :: documents' =>
    let text := raw document in
    let sents := raw_sents document in
    labels ← text2labels text sents;
    features ← sent2features lower isupper isnumeric text;
    documents_loop documents' (X ++ [features]) (y ++ [labels])
  end.

(** [train_test_split] is a free name of the function body, resolved in
    the module's globals when the [return] statement runs: the argument
    [train_test_split] is what that lookup finds, if anything. *)
Definition get_train_data (train_test_split : option splitter)
    (corpus : list document) (kwargs : kwargs_t) : result split :=
  '(X, y) ← documents_loop corpus [] [];
  match train_test_split with
  | Some callee => callee X y kwargs
  | None => Raise NameError
  end.

(** The module imports [tqdm], [itertools], [CorpusReader], [Trainer] and
    [Tagger], and defines [model_name], [char2features], [text2labels],
    [sent2features], [text2sentences], [get_train_data] and [train]:
    nothing binds [train_test_split]. *)
Definition module_train_test_split : option splitter := None.

End Builder.

(** ** Vocabulary of the stated properties *)

(** [sub] occurs in [text] as a contiguous substring. *)
Definition occurs (sub text : str) : Prop :=
  ∃ pre post, text = pre ++ sub ++ post.

(** The character at [p] lies in the span that the first loop of
    [text2labels] overwrites for [sent]. *)
Definition covers (text : str) (p : nat) (sent : str) : bool :=
  match find text sent with
  | Some start => (start <=? p) && (p <? start + length sent)
  | None => false
  end.

(** Position [p] is marked by the span of some sentence of [sents]. *)
Definition marked (text : str) (sents : list str) (p : nat) : bool :=
  existsb (covers text p) sents.

(** A segmented document: a leading separator, then every sentence paired
    with the separator that follows it. *)
Definition flat (body : list (str * str)) : str :=
  concat ((λ seg, seg.1 ++ seg.2) <$> body).

(** Sentences are non-empty and two consecutive sentences have at least
    one separator character between them. *)
Fixpoint separated (body : list (str * str)) : Prop :=
  match body with
  | [] => True
  | seg :: body' => seg.1 ≠ [] ∧ (body' ≠ [] → seg.2 ≠ []) ∧ separated body'
  end.

(** [sents] are non-overlapping, non-duplicated substrings that, with
    separators in between, reconstruct [text]. *)
Definition reconstructs (text : str) (sents : list str) : Prop :=
  ∃ lead body,
    text = lead ++ flat body ∧ sents = body.*1 ∧ separated body ∧ NoDup sents.

(** Where each sentence of a segmented document starts. *)
Fixpoint offsets (start : nat) (body : list (str * str)) : list nat :=
  match body with
  | [] => []
  | seg :: body' => start :: offsets (start + length seg.1 + length seg.2) body'
  end.

(** The labelling a segmented document is meant to have. *)
Definition segment_labels (body : list (str * str)) : list str :=
  concat ((λ seg, replicate (length seg.1) IN_SENTENCE
                  ++ replicate (length seg.2) BOUNDARY) <$> body).

(** The pieces into which the boundary labels cut the text: a position
    labelled ['1'] ends the current piece, any other label extends it. *)
Fixpoint pieces (tl : list (char * str)) : list str :=
  match tl with
  | [] => [[]]
  | (c, label) :: tl' =>
    if bool_decide (label = BOUNDARY) then [] :: pieces tl'
    else match pieces tl' with
         | [] => [[c]]
         | piece :: rest => (c :: piece) :: rest
         end
  end.

Definition nonempty (s : str) : Prop := s ≠ [].

(** Decoding in the words of the design: the non-empty pieces, in order. *)
Definition decode_spec (text : str) (labels : list str) : list str :=
  filter nonempty (pieces (zip text labels)).

(** The accumulated buffer joins the first piece that follows. *)
Definition extend (acc : str) (ps : list str) : list str :=
  match ps with
  | [] => [acc]
  | piece :: rest => (acc ++ piece) :: rest
  end.

(** The characters whose label is not ['1'], in text order. *)
Definition kept (text : str) (labels : list str) : str :=
  (filter (λ cl, cl.2 ≠ BOUNDARY) (zip text labels)).*1.

(** The characters labelled ['0'], in text order. *)
Definition in_sentence_chars (text : str) (labels : list str) : str :=
  (filter (λ cl, cl.2 = IN_SENTENCE) (zip text labels)).*1.

(** What the second loop leaves at a position holding [label]. *)
Definition finalized (label : str) : str :=
  if bool_decide (label ≠ IN_SENTENCE) then BOUNDARY else label.

(** The labels after the first loop: sentence spans overwritten, separators
    still holding the characters of the text. *)
Definition marked_body (body : list (str * str)) : list str :=
  concat ((λ seg, replicate (length seg.1) IN_SENTENCE ++ chars seg.2) <$> body).

(** Every ground-truth sentence of every document is found in its text. *)
Definition encodable (corpus : list document) : bool :=
  forallb (λ d, forallb (λ sent, bool_decide (is_Some (find (raw d) sent)))
                        (raw_sents d)) corpus.

(** Whether a feature token carries the offset marker [tag]. *)
Definition tagged (tag : str) (feature : str) : Prop := startswith tag feature = true.

#[global] Instance tagged_dec (tag feature : str) : Decision (tagged tag feature).
Proof. unfold tagged. apply _. Defined.

(** Every label other than ['1'] read as ['0']. *)
Definition as_binary (label : str) : str :=
  if bool_decide (label = BOUNDARY) then BOUNDARY else IN_SENTENCE.

(** An instance of the character database on the ASCII range only. *)
Module AsciiDb.
Definition lower (c : char) : str :=
  if ((65 <=? c) && (c <=? 90))%N then [(c + 32)%N] else [c].
Definition isupper (c : char) : bool := ((65 <=? c) && (c <=? 90))%N.
Definition isnumeric (c : char) : bool := ((48 <=? c) && (c <=? 57))%N.
End AsciiDb.

(** ** Training and inference orchestration *)

Definition model_name : str := u "data/sentence-segmentation-model.crfsuite".

(** A value of the parameter dictionary; a float is kept as the literal the
    source writes. *)
Inductive param_value : Type :=
  | PFloat (literal : str)
  | PInt (n : Z).

(** The dictionary literal passed to [crf.set_params]. *)
Definition train_params : list (str * param_value) :=
  [ (u "c1", PFloat (u "1.0"));
    (u "c2", PFloat (u "0.001"));
    (u "max_iterations", PInt 200) ].

Section Orchestrator.

Variable lower : char → str.
Variable isupper : char → bool.
Variable isnumeric : char → bool.

(** The [pycrfsuite] collaborators, as far as the module uses them: a
    trainer object whose methods update it or raise, and a tagger. *)
Variable trainer : Type.
Variable Trainer : result trainer.
Variable set_params : trainer → list (str * param_value) → result trainer.
Variable append : trainer → feature_seq → label_seq → result trainer.
Variable train_model : trainer → str → result trainer.
Variable tag : feature_seq → result (list str).

Variable kwargs_t : Type.

(** [for xseq, yseq in zip(X_train, y_train): crf.append(xseq, yseq)] *)
Fixpoint append_all (crf : trainer) (pairs : list (feature_seq * label_seq))
  : result trainer :=
  match pairs with
  | [] => Ok crf
  | (xseq, yseq) :: pairs' => crf ← append crf xseq yseq; append_all crf pairs'
  end.

Definition train (X_train X_test : list feature_seq)
    (y_train y_test : list label_seq) (kwargs : kwargs_t) : result trainer :=
  crf ← Trainer;
  crf ← set_params crf train_params;
  crf ← append_all crf (zip X_train y_train);
  crf ← train_model crf model_name;
  Ok crf.

(** The two inference statements of the script, for an arbitrary text:
    [labels = tagger.tag(sent2features(text))] and
    [sentences = text2sentences(text, labels)]. *)
Definition segment (text : str) : result (generated str) :=
  features ← sent2features lower isupper isnumeric text;
  labels ← tag features;
  Ok (text2sentences text labels).

End Orchestrator.

(** A trainer that only records the calls made on it. *)
Module Recording.

Inductive call : Type :=
  | SetParams (params : list (str * param_value))
  | Append (xseq : list (list str)) (yseq : list str)
  | Train (path : str).

Definition trainer : Type := list call.
Definition Trainer : result trainer := Ok [].
Definition set_params (crf : trainer) (params : list (str * param_value))
  : result trainer := Ok (crf ++ [SetParams params]).
Definition append (crf : trainer) (xseq : list (list str)) (yseq : list str)
  : result trainer := Ok (crf ++ [Append xseq yseq]).
Definition train_model (crf : trainer) (path : str) : result trainer :=
  Ok (crf ++ [Train path]).

End Recording.

(** The number of context groups around position [i] of a text of length
    [n]: up to two before and up to two after. *)
Definition context_groups (n i : nat) : nat := (i `min` 2) + ((n - 1 - i) `min` 2).

(** Every sentence of the list is found in the text. *)
Definition found_all (text : str) (sents : list str) : bool :=
  forallb (λ sent, bool_decide (is_Some (find text sent))) sents.

(** The label [text2labels] gives a position holding the character [c]. *)
Definition label_at (text : str) (sents : list str) (p : nat) (c : char) : str :=
  if marked text sents p || bool_decide (c = 48%N) then IN_SENTENCE else BOUNDARY.

(** ** Checks on concrete inputs *)

Example scenario_text : u "привет. меня зовут аня." =
  [1087; 1088; 1080; 1074; 1077; 1090; 46; 32; 1084; 1077; 1085; 1103; 32;
   1079; 1086; 1074; 1091; 1090; 32; 1072; 1085; 1103; 46]%N.
Proof. vm_compute. reflexivity. Qed.

Example scenario_labels :
  text2labels (u "привет. меня зовут аня.") [u "привет."; u "меня зовут аня."]
  = Ok (replicate 7 (u "0") ++ [u "1"] ++ replicate 15 (u "0")).
Proof. vm_compute. reflexivity. Qed.

Example first_occurrence_hazard :
  text2labels (u "ab b") [u "ab"; u "b"] = Ok [u "0"; u "0"; u "1"; u "1"].
Proof. vm_compute. reflexivity. Qed.

Example decode_shorter_labels :
  text2sentences (u "ab") [u "0"] = ([u "a"], None).
Proof. vm_compute. reflexivity. Qed.

Example decode_longer_labels :
  text2sentences (u "a") [u "0"; u "1"; u "0"] = ([u "a"], Some IndexError).
Proof. vm_compute. reflexivity. Qed.

Example decode_spec_example :
  decode_spec (u "ab cd") [u "0"; u "x"; u "1"; u "1"; u "0"] = [u "ab"; u "d"].
Proof. vm_compute. reflexivity. Qed.

(** ** Substring search *)

Lemma label_values : IN_SENTENCE = [48%N] ∧ BOUNDARY = [49%N].
Proof. split; reflexivity. Qed.

Lemma startswith_app (sub text : str) :
  startswith sub text = true ↔ ∃ post, text = sub ++ post.
Proof.
  revert text. induction sub as [|a sub IH]; intros text; simpl.
  - split; [intros _; by exists text | done].
  - destruct text as [|b text].
    + split; [done | intros [post Hpost]; discriminate].
    + rewrite andb_true_iff, bool_decide_eq_true, IH. split.
      * intros [-> [post ->]]. by exists post.
      * intros [post Hpost]. injection Hpost as -> ->. eauto.
Qed.

Lemma find_Some (text sub : str) (i : nat) :
  find text sub = Some i →
  take (length sub) (drop i text) = sub ∧ i + length sub ≤ length text.
Proof.
  revert i. induction text as [|b text IH]; intros i; simpl.
  - destruct (startswith sub []) eqn:Hs; [|done].
    intros [= <-]. apply startswith_app in Hs as [post Hpost].
    symmetry in Hpost. apply app_eq_nil in Hpost as [-> _]. done.
  - destruct (startswith sub (b :: text)) eqn:Hs.
    + intros [= <-]. apply startswith_app in Hs as [post Hpost].
      pose proof (f_equal length Hpost) as Hlen. rewrite length_app in Hlen.
      simpl in Hlen. rewrite drop_0, Hpost, take_app_length. split; [done | lia].
    + destruct (find text sub) as [j|] eqn:Hf; [|done].
      intros [= <-]. destruct (IH j eq_refl) as [Ht Hl]. simpl. split; [done | lia].
Qed.

Lemma find_occurs (text sub : str) (i : nat) :
  find text sub = Some i → occurs sub text.
Proof.
  intros [Ht Hl]%find_Some. exists (take i text), (drop (length sub) (drop i text)).
  rewrite <- Ht at 1. by rewrite !take_drop.
Qed.

Lemma occurs_find (text sub : str) :
  occurs sub text → is_Some (find text sub).
Proof.
  intros (pre & post & ->). induction pre as [|b pre IH]; simpl.
  - assert (startswith sub (sub ++ post) = true) as Hs
      by (apply startswith_app; eauto).
    destruct (sub ++ post); simpl in *; rewrite Hs; eauto.
  - destruct (startswith sub (b :: pre ++ sub ++ post)); [eauto|].
    destruct IH as [j ->]. simpl. eauto.
Qed.

Lemma find_None (text sub : str) : find text sub = None ↔ ¬ occurs sub text.
Proof.
  split.
  - intros Hf [j Hj]%occurs_find. congruence.
  - intros Hn. destruct (find text sub) as [j|] eqn:Hf; [|done].
    destruct Hn. by eapply find_occurs.
Qed.

(** The index reported is the lowest one. *)
Lemma find_lowest (text sub : str) (i j : nat) :
  find text sub = Some i → j < i → take (length sub) (drop j text) ≠ sub
                                   ∨ length text < j + length sub.
Proof.
  revert i j. induction text as [|b text IH]; intros i j; simpl.
  - destruct (startswith sub []); [|done]. intros [= <-]. lia.
  - destruct (startswith sub (b :: text)) eqn:Hs; [intros [= <-]; lia|].
    destruct (find text sub) as [k|] eqn:Hf; [|done]. intros [= <-] Hj.
    destruct j as [|j].
    + rewrite drop_0. destruct (decide (length (b :: text) < 0 + length sub)) as [|Hlen];
        [by right | left].
      intros Heq. assert (startswith sub (b :: text) = true); [|congruence].
      apply startswith_app. exists (drop (length sub) (b :: text)).
      rewrite <- Heq at 1. by rewrite take_drop.
    + simpl. destruct (IH k j eq_refl) as [?|?]; [lia | by left | right; lia].
Qed.

(** ** Slice assignment and the two loops of [text2labels] *)

Lemma length_chars (s : str) : length (chars s) = length s.
Proof. apply length_fmap. Qed.

Lemma chars_app (s t : str) : chars (s ++ t) = chars s ++ chars t.
Proof. apply fmap_app. Qed.

Lemma chars_zeros (n : nat) : chars (replicate n 48%N) = replicate n IN_SENTENCE.
Proof. induction n as [|n IH]; [done|]. simpl. by rewrite <- IH. Qed.

Lemma length_setslice {A} (l v : list A) (start : nat) :
  start + length v ≤ length l →
  length (setslice l start (start + length v) v) = length l.
Proof.
  intros Hb. unfold setslice.
  rewrite !length_app, length_take, length_drop. lia.
Qed.

Lemma lookup_setslice {A} (l : list A) (start n p : nat) (x : A) :
  start + n ≤ length l →
  setslice l start (start + n) (replicate n x) !! p
  = if (start <=? p) && (p <? start + n) then Some x else l !! p.
Proof.
  intros Hb. unfold setslice. replace (Nat.max start (start + n)) with (start + n) by lia.
  destruct (decide (p < start)) as [Hlt|Hge].
  - rewrite lookup_app_l by (rewrite length_take; lia).
    rewrite lookup_take_lt by done.
    destruct (start <=? p) eqn:E; [apply Nat.leb_le in E; lia | done].
  - rewrite lookup_app_r by (rewrite length_take; lia).
    rewrite length_take_le by lia.
    assert ((start <=? p) = true) as -> by (apply Nat.leb_le; lia). simpl.
    destruct (p <? start + n) eqn:E.
    + apply Nat.ltb_lt in E.
      rewrite lookup_app_l by (rewrite length_replicate; lia).
      apply lookup_replicate_2. lia.
    + apply Nat.ltb_ge in E.
      rewrite lookup_app_r by (rewrite length_replicate; lia).
      rewrite length_replicate, lookup_drop. f_equal. lia.
Qed.

(** Overwriting the middle part of a list laid out as three parts. *)
Lemma setslice_middle {A} (pre old post v : list A) :
  length v = length old →
  setslice (pre ++ old ++ post) (length pre) (length pre + length v) v
  = pre ++ v ++ post.
Proof.
  intros Hlen. unfold setslice.
  replace (Nat.max (length pre) (length pre + length v))
    with (length pre + length v) by lia.
  rewrite take_app_length. do 2 f_equal.
  rewrite drop_app_ge by lia. rewrite Hlen.
  replace (length pre + length old - length pre) with (length old) by lia.
  apply drop_app_length.
Qed.

Lemma mark_sents_missing (text : str) (sents : list str) (labels : list str) :
  (∃ sent, sent ∈ sents ∧ find text sent = None) →
  mark_sents text sents labels = Raise ValueError.
Proof.
  revert labels. induction sents as [|s sents IH]; intros labels (sent & Hin & Hf).
  - by apply elem_of_nil in Hin.
  - simpl. unfold index. destruct (find text s) as [start|] eqn:Hs; [|done]. simpl.
    apply IH. apply elem_of_cons in Hin as [->|Hin]; [congruence | eauto].
Qed.

Lemma mark_sents_lookup (text : str) (sents : list str) (labels : list str) :
  length labels = length text →
  Forall (λ sent, is_Some (find text sent)) sents →
  ∃ labels',
    mark_sents text sents labels = Ok labels' ∧
    length labels' = length text ∧
    ∀ p, labels' !! p
         = if marked text sents p then Some IN_SENTENCE else labels !! p.
Proof.
  intros Hlen Hall. revert labels Hlen.
  induction Hall as [|s sents [start Hs] _ IH]; intros labels Hlen.
  - exists labels. by repeat split.
  - simpl. unfold index. rewrite Hs. simpl.
    pose proof (find_Some _ _ _ Hs) as [_ Hb].
    rewrite chars_zeros.
    destruct (IH (setslice labels start (start + length s)
                    (replicate (length s) IN_SENTENCE))) as (labels' & Hm & Hl & Hp).
    { rewrite <- Hlen.
      rewrite <- (length_replicate (length s) IN_SENTENCE) at 1.
      apply length_setslice. rewrite length_replicate. lia. }
    exists labels'. repeat split; [done..|].
    intros p. rewrite Hp, lookup_setslice by lia.
    unfold covers. rewrite Hs.
    by destruct (marked text sents p), ((start <=? p) && (p <? start + length s)).
Qed.

Lemma finalize_from (seen todo : list str) :
  foldl finalize_step (seen ++ todo) (seq (length seen) (length todo))
  = seen ++ (finalized <$> todo).
Proof.
  revert seen. induction todo as [|c todo IH]; intros seen; [done|].
  simpl. unfold finalize_step at 2.
  rewrite list_lookup_middle by done.
  assert ((if bool_decide (c ≠ IN_SENTENCE)
           then <[length seen := BOUNDARY]> (seen ++ c :: todo)
           else seen ++ c :: todo) = (seen ++ [finalized c]) ++ todo) as ->.
  { unfold finalized. case_bool_decide.
    - rewrite insert_app_r_alt, Nat.sub_diag by done. simpl. by rewrite <- app_assoc.
    - by rewrite <- app_assoc. }
  replace (S (length seen)) with (length (seen ++ [finalized c]))
    by (rewrite length_app; simpl; lia).
  rewrite IH. by rewrite <- app_assoc.
Qed.

Lemma finalize_fmap (labels : list str) : finalize labels = finalized <$> labels.
Proof. apply (finalize_from [] labels). Qed.

Lemma length_finalize (labels : list str) : length (finalize labels) = length labels.
Proof. rewrite finalize_fmap. apply length_fmap. Qed.

(** The labels [text2labels] computes, position by position: ['0'] where a
    sentence span was written or where the text itself holds the character
    ['0'], and ['1'] everywhere else. *)
Lemma text2labels_lookup (text : str) (sents : list str) :
  Forall (λ sent, occurs sent text) sents →
  ∃ labels,
    text2labels text sents = Ok labels ∧
    length labels = length text ∧
    ∀ p c, text !! p = Some c →
      labels !! p
      = Some (if marked text sents p || bool_decide (c = 48%N)
              then IN_SENTENCE else BOUNDARY).
Proof.
  intros Hall.
  destruct (mark_sents_lookup text sents (chars text)) as (labels & Hm & Hl & Hp).
  { apply length_chars. }
  { eapply Forall_impl; [exact Hall | intros s; apply occurs_find]. }
  exists (finalize labels). unfold text2labels. rewrite Hm. simpl.
  repeat split; [by rewrite length_finalize|].
  intros p c Hc. rewrite finalize_fmap, list_lookup_fmap, Hp.
  destruct (marked text sents p); simpl; [done|].
  unfold chars. rewrite list_lookup_fmap, Hc. simpl. unfold finalized.
  destruct (decide (c = 48%N)) as [->|Hne].
  - reflexivity.
  - rewrite (bool_decide_eq_false_2 (c = 48%N)) by done.
    rewrite bool_decide_eq_true_2; [done|].
    intros Heq. apply Hne. destruct label_values as [Hz _].
    rewrite Hz in Heq. by injection Heq.
Qed.

(** ** The decoding loop *)

Lemma loop_shift (c : char) (text : str) (i : nat) (labels : list str) (acc : str) :
  sentences_loop (c :: text) (S i) labels acc = sentences_loop text i labels acc.
Proof.
  revert i acc. induction labels as [|l labels IH]; intros i acc; [done|].
  simpl. rewrite !IH. destruct (text !! i); by rewrite ?IH.
Qed.

Lemma loop_nil_index (i : nat) (labels : list str) (acc : str) :
  sentences_loop [] i labels acc = sentences_loop [] 0 labels acc.
Proof.
  revert i acc. induction labels as [|l labels IH]; intros i acc; [done|].
  simpl. rewrite (IH (S i)), (IH 1). by rewrite ?lookup_nil.
Qed.

Lemma loop_boundary (c : char) (text : str) (labels : list str) (acc : str) :
  sentences_loop (c :: text) 0 (BOUNDARY :: labels) acc
  = (flush acc ++ (sentences_loop text 0 labels []).1,
     (sentences_loop text 0 labels []).2).
Proof.
  cbn [sentences_loop]. rewrite bool_decide_eq_true_2 by done.
  by rewrite loop_shift.
Qed.

Lemma loop_in_sentence (c : char) (text : str) (l : str) (labels : list str) (acc : str) :
  l ≠ BOUNDARY →
  sentences_loop (c :: text) 0 (l :: labels) acc
  = sentences_loop text 0 labels (acc ++ [c]).
Proof.
  intros Hl. cbn [sentences_loop]. rewrite bool_decide_eq_false_2 by done.
  simpl. by rewrite loop_shift.
Qed.

(** How the generator ends: normally, unless it has to read the text at a
    position past its end. *)
Lemma loop_outcome (text : str) (labels : list str) (acc : str) :
  (sentences_loop text 0 labels acc).2
  = if forallb (λ l, bool_decide (l = BOUNDARY)) (drop (length text) labels)
    then None else Some IndexError.
Proof.
  revert text acc. induction labels as [|l labels IH]; intros text acc.
  - by rewrite drop_nil.
  - destruct text as [|c text].
    + simpl. case_bool_decide; simpl; [|done].
      by rewrite loop_nil_index, IH.
    + destruct (decide (l = BOUNDARY)) as [->|Hl].
      * rewrite loop_boundary. simpl. apply IH.
      * rewrite loop_in_sentence by done. apply IH.
Qed.

(** Characters of the text beyond the last label are never read. *)
Lemma loop_take (text : str) (labels : list str) (acc : str) :
  sentences_loop text 0 labels acc
  = sentences_loop (take (length labels) text) 0 labels acc.
Proof.
  revert text acc. induction labels as [|l labels IH]; intros text acc; [done|].
  destruct text as [|c text]; [done|].
  destruct (decide (l = BOUNDARY)) as [->|Hl]; simpl take.
  - by rewrite !loop_boundary, <- IH.
  - by rewrite !loop_in_sentence, <- IH.
Qed.

Lemma loop_concat (text : str) (labels : list str) (acc : str) :
  length text = length labels →
  concat (sentences_loop text 0 labels acc).1 = acc ++ kept text labels.
Proof.
  revert text acc. induction labels as [|l labels IH]; intros text acc Hlen.
  - destruct text; [|done]. simpl. destruct acc; simpl; by rewrite ?app_nil_r.
  - destruct text as [|c text]; [done|]. injection Hlen as Hlen. unfold kept.
    destruct (decide (l = BOUNDARY)) as [->|Hl].
    + rewrite loop_boundary. simpl fst. rewrite concat_app, IH by done.
      simpl zip. rewrite filter_cons_False by (simpl; naive_solver).
      destruct acc; simpl; by rewrite ?app_nil_r.
    + rewrite loop_in_sentence, IH by done.
      simpl zip. rewrite filter_cons_True by done. simpl. by rewrite <- app_assoc.
Qed.

Lemma filter_nonempty_flush (acc : str) (ps : list str) :
  filter nonempty (acc :: ps) = flush acc ++ filter nonempty ps.
Proof.
  destruct acc; [by rewrite filter_cons_False by (unfold nonempty; naive_solver)|].
  by rewrite filter_cons_True.
Qed.

Lemma loop_pieces (text : str) (labels : list str) (acc : str) :
  length text = length labels →
  sentences_loop text 0 labels acc
  = (filter nonempty (extend acc (pieces (zip text labels))), None).
Proof.
  revert text acc. induction labels as [|l labels IH]; intros text acc Hlen.
  - destruct text; [|done]. simpl.
    by rewrite app_nil_r, filter_nonempty_flush, filter_nil, app_nil_r.
  - destruct text as [|c text]; [done|]. injection Hlen as Hlen.
    destruct (decide (l = BOUNDARY)) as [->|Hl].
    + rewrite loop_boundary, IH by done. simpl.
      rewrite app_nil_r, filter_nonempty_flush.
      by destruct (pieces (zip text labels)).
    + rewrite loop_in_sentence, IH by done. simpl.
      rewrite bool_decide_eq_false_2 by done.
      destruct (pieces (zip text labels)); simpl; by rewrite <- ?app_assoc.
Qed.

Lemma loop_as_binary (text : str) (i : nat) (labels : list str) (acc : str) :
  sentences_loop text i (as_binary <$> labels) acc = sentences_loop text i labels acc.
Proof.
  revert i acc. induction labels as [|l labels IH]; intros i acc; [done|].
  rewrite fmap_cons. cbn [sentences_loop]. rewrite !IH.
  unfold as_binary. destruct (decide (l = BOUNDARY)) as [->|Hl].
  - by rewrite !bool_decide_eq_true_2 by done.
  - rewrite (bool_decide_eq_false_2 (l = BOUNDARY)) by done.
    rewrite (bool_decide_eq_false_2 (IN_SENTENCE = BOUNDARY)) by done.
    destruct (text !! i); by rewrite ?IH.
Qed.

(** ** Segmented documents *)

Lemma flat_cons (seg : str * str) (body : list (str * str)) :
  flat (seg :: body) = seg.1 ++ seg.2 ++ flat body.
Proof. unfold flat. simpl. by rewrite <- app_assoc. Qed.

Lemma mark_sents_body (text : str) (body : list (str * str)) (pre : list str) :
  Forall2 (λ sent start, find text sent = Some start)
          body.*1 (offsets (length pre) body) →
  mark_sents text body.*1 (pre ++ chars (flat body)) = Ok (pre ++ marked_body body).
Proof.
  revert pre. induction body as [|seg body IH]; intros pre Hfirst; [done|].
  simpl in Hfirst. apply Forall2_cons in Hfirst as [Hseg Hfirst].
  simpl. unfold index. rewrite Hseg. simpl.
  rewrite flat_cons, !chars_app, chars_zeros.
  rewrite <- (length_replicate (length seg.1) IN_SENTENCE) at 1.
  rewrite setslice_middle by (by rewrite length_replicate, length_chars).
  specialize (IH (pre ++ replicate (length seg.1) IN_SENTENCE ++ chars seg.2)).
  rewrite <- !app_assoc in IH. etrans; [apply IH|].
  - by rewrite !length_app, length_replicate, length_chars, Nat.add_assoc.
  - unfold marked_body. simpl. by rewrite <- !app_assoc.
Qed.

Lemma finalized_separator (sep : str) :
  48%N ∉ sep → finalized <$> chars sep = replicate (length sep) BOUNDARY.
Proof.
  induction sep as [|c sep IH]; intros Hsep; [done|].
  apply not_elem_of_cons in Hsep as [Hc Hsep].
  change (chars (c :: sep)) with ([c] :: chars sep).
  rewrite fmap_cons, IH by done. simpl.
  f_equal. unfold finalized. rewrite bool_decide_eq_true_2; [done|].
  destruct label_values as [-> _]. congruence.
Qed.

Lemma finalized_in_sentence (n : nat) :
  finalized <$> replicate n IN_SENTENCE = replicate n IN_SENTENCE.
Proof. induction n as [|n IH]; [done|]. simpl replicate. by rewrite fmap_cons, IH. Qed.

Lemma finalized_body (body : list (str * str)) :
  Forall (λ sep, 48%N ∉ sep) body.*2 →
  finalized <$> marked_body body = segment_labels body.
Proof.
  induction body as [|seg body IH]; intros Hsep; [done|].
  simpl in Hsep. apply Forall_cons in Hsep as [Hseg Hsep].
  unfold marked_body, segment_labels in *. rewrite !fmap_cons. simpl concat.
  rewrite !fmap_app, IH by done.
  by rewrite finalized_in_sentence, finalized_separator.
Qed.

(** Encoding a segmented document whose sentences are each found at their
    own position, and whose separators do not contain the character ['0']. *)
Lemma text2labels_segmented (lead : str) (body : list (str * str)) :
  Forall2 (λ sent start, find (lead ++ flat body) sent = Some start)
          body.*1 (offsets (length lead) body) →
  Forall (λ sep, 48%N ∉ sep) (lead :: body.*2) →
  text2labels (lead ++ flat body) body.*1
  = Ok (replicate (length lead) BOUNDARY ++ segment_labels body).
Proof.
  intros Hfirst Hsep. apply Forall_cons in Hsep as [Hlead Hsep].
  unfold text2labels. rewrite chars_app, mark_sents_body
    by (by rewrite length_chars).
  simpl. rewrite finalize_fmap, fmap_app.
  by rewrite finalized_separator, finalized_body.
Qed.

Lemma loop_sentence_run (s rest : str) (labels : list str) (acc : str) :
  sentences_loop (s ++ rest) 0 (replicate (length s) IN_SENTENCE ++ labels) acc
  = sentences_loop rest 0 labels (acc ++ s).
Proof.
  revert acc. induction s as [|c s IH]; intros acc; simpl app.
  - by rewrite app_nil_r.
  - simpl replicate. simpl app. rewrite loop_in_sentence by done.
    by rewrite IH, <- app_assoc.
Qed.

Lemma loop_boundary_run (sep rest : str) (labels : list str) (acc : str) :
  sep ≠ [] →
  sentences_loop (sep ++ rest) 0 (replicate (length sep) BOUNDARY ++ labels) acc
  = (flush acc ++ (sentences_loop rest 0 labels []).1,
     (sentences_loop rest 0 labels []).2).
Proof.
  revert acc. induction sep as [|c sep IH]; intros acc Hsep; [done|].
  simpl replicate. simpl app. rewrite loop_boundary.
  destruct sep as [|c' sep]; [done|].
  by rewrite IH.
Qed.

Lemma segment_labels_cons (seg : str * str) (body : list (str * str)) :
  segment_labels (seg :: body)
  = replicate (length seg.1) IN_SENTENCE
    ++ replicate (length seg.2) BOUNDARY ++ segment_labels body.
Proof. unfold segment_labels. rewrite fmap_cons. simpl. by rewrite <- app_assoc. Qed.

Lemma loop_body (body : list (str * str)) :
  separated body →
  sentences_loop (flat body) 0 (segment_labels body) [] = (body.*1, None).
Proof.
  induction body as [|[s sep] body IH]; intros Hsep; [done|].
  destruct Hsep as (Hs & Hnext & Hsep). simpl in Hs, Hnext.
  rewrite flat_cons, segment_labels_cons, fmap_cons. cbn [fst snd].
  rewrite loop_sentence_run, app_nil_l.
  destruct sep as [|c sep].
  - destruct body as [|seg body]; [|by destruct Hnext].
    simpl. by destruct s.
  - rewrite loop_boundary_run, IH by done. by destruct s.
Qed.

Lemma text2sentences_segmented (lead : str) (body : list (str * str)) :
  separated body →
  text2sentences (lead ++ flat body)
    (replicate (length lead) BOUNDARY ++ segment_labels body)
  = (body.*1, None).
Proof.
  intros Hsep. unfold text2sentences. destruct lead as [|c lead].
  - by apply loop_body.
  - rewrite loop_boundary_run by done. by rewrite loop_body.
Qed.

(** ** Feature extractor and dataset builder *)

Lemma getitem_lt {A} (l : list A) (i : nat) :
  i < length l → ∃ x, getitem l i = Ok x.
Proof.
  intros Hi. unfold getitem.
  destruct (lookup_lt_is_Some_2 l i Hi) as [x ->]. eauto.
Qed.

Lemma comprehension_length {A B} (f : A → result B) (l : list A) :
  Forall (λ x, ∃ y, f x = Ok y) l →
  ∃ ys, comprehension f l = Ok ys ∧ length ys = length l.
Proof.
  induction 1 as [|x l [y Hy] _ (ys & Hys & Hlen)]; simpl.
  - by exists [].
  - rewrite Hy. simpl. rewrite Hys. simpl. exists (y :: ys). by rewrite <- Hlen.
Qed.

Section FeatureFacts.

Variable lower : char → str.
Variable isupper : char → bool.
Variable isnumeric : char → bool.

Local Ltac context_group sentence :=
  match goal with
  | |- context [if ?b then _ else _] =>
    let E := fresh "E" in
    destruct b eqn:E;
    [ first [apply Nat.ltb_lt in E | apply Z.ltb_lt in E];
      match goal with
      | |- context [getitem sentence ?j] =>
        let Hj := fresh "Hj" in
        destruct (getitem_lt sentence j) as [? Hj]; [lia|]; rewrite Hj
      end
    | ]; cbn [mbind result_bind]
  end.

Lemma char2features_in_range (sentence : str) (i : nat) :
  i < length sentence →
  ∃ features, char2features lower isupper isnumeric sentence i = Ok features.
Proof.
  intros Hi. unfold char2features.
  destruct (getitem_lt sentence i Hi) as [c ->]. cbn [mbind result_bind].
  do 4 context_group sentence; eauto.
Qed.

Lemma sent2features_length (sent : str) :
  ∃ features,
    sent2features lower isupper isnumeric sent = Ok features ∧
    length features = length sent.
Proof.
  unfold sent2features.
  destruct (comprehension_length (char2features lower isupper isnumeric sent)
              (seq 0 (length sent))) as (features & Hf & Hlen).
  - apply Forall_forall. intros i Hi%elem_of_seq.
    apply char2features_in_range. lia.
  - exists features. by rewrite length_seq in Hlen.
Qed.

Variable kwargs_t : Type.

Lemma documents_loop_extends (corpus : list document)
    (X : list feature_seq) (y : list label_seq) :
  Forall (λ d, Forall (λ sent, occurs sent (raw d)) (raw_sents d)) corpus →
  ∃ Xs ys,
    documents_loop lower isupper isnumeric corpus X y = Ok (X ++ Xs, y ++ ys) ∧
    Forall2 (λ d features,
               sent2features lower isupper isnumeric (raw d) = Ok features)
            corpus Xs ∧
    Forall2 (λ d labels, text2labels (raw d) (raw_sents d) = Ok labels)
            corpus ys.
Proof.
  intros Hall. revert X y.
  induction Hall as [|d corpus Hd _ IH]; intros X y.
  - exists [], []. simpl. rewrite !app_nil_r. by repeat split.
  - destruct (text2labels_lookup _ _ Hd) as (labels & Hl & _).
    destruct (sent2features_length (raw d)) as (features & Hf & _).
    destruct (IH (X ++ [features]) (y ++ [labels])) as (Xs & ys & Hloop & HX & Hy).
    exists (features :: Xs), (labels :: ys). simpl.
    rewrite Hl. simpl. rewrite Hf. simpl. rewrite Hloop.
    rewrite <- !app_assoc. repeat split; by constructor.
Qed.

(** With a partition function bound to the name, the builder hands it the
    documents' feature and label sequences, both in corpus order. *)
Lemma get_train_data_bound (callee : splitter kwargs_t)
    (corpus : list document) (kwargs : kwargs_t) :
  Forall (λ d, Forall (λ sent, occurs sent (raw d)) (raw_sents d)) corpus →
  ∃ X y,
    get_train_data lower isupper isnumeric kwargs_t (Some callee) corpus kwargs
    = callee X y kwargs ∧
    Forall2 (λ d xy,
               sent2features lower isupper isnumeric (raw d) = Ok xy.1 ∧
               text2labels (raw d) (raw_sents d) = Ok xy.2)
            corpus (zip X y) ∧
    length X = length corpus ∧ length y = length corpus.
Proof.
  intros Hall.
  destruct (documents_loop_extends corpus [] [] Hall) as (X & y & Hloop & HX & Hy).
  exists X, y. unfold get_train_data. rewrite Hloop. simpl.
  split; [done|]. clear Hloop Hall.
  revert y Hy. induction HX as [|d features corpus X Hd _ IH]; intros y Hy.
  - by inversion Hy.
  - inversion Hy as [|? labels ? ys Hl Hys]; subst.
    destruct (IH ys Hys) as (Hz & HlX & Hly). simpl.
    repeat split; [by constructor | lia..].
Qed.

End FeatureFacts.

(** ** The stated properties *)

(** *** Label codec: encoding *)

(** C2, evaluated where it fails.  In ["a 0 b"] with sentences ["a"] and
    ["b"], position 2 holds the character ['0'] and lies in no sentence
    span, yet [text2labels] labels it ['0'] instead of ['1']: the text's own
    characters serve as the not-yet-classified marker, and the second loop
    cannot tell a ['0'] of the text from a ['0'] written by the first. *)
Theorem text2labels_keeps_zero_character :
  u "a 0 b" !! 2 = Some 48%N ∧
  marked (u "a 0 b") [u "a"; u "b"] 2 = false ∧
  text2labels (u "a 0 b") [u "a"; u "b"]
  = Ok [IN_SENTENCE; BOUNDARY; IN_SENTENCE; BOUNDARY; IN_SENTENCE].
Proof. repeat split; vm_compute; reflexivity. Qed.

(** Away from the character ['0'], finalization is as stated: a position
    outside every sentence span is labelled ['1']. *)
Lemma text2labels_unmarked (text : str) (sents : list str) (p : nat) (c : char) :
  Forall (λ sent, occurs sent text) sents →
  text !! p = Some c → c ≠ 48%N → marked text sents p = false →
  ∃ labels, text2labels text sents = Ok labels ∧ labels !! p = Some BOUNDARY.
Proof.
  intros Hall Hc Hne Hm.
  destruct (text2labels_lookup text sents Hall) as (labels & Hl & _ & Hp).
  exists labels. split; [done|].
  by rewrite (Hp p c Hc), Hm, bool_decide_eq_false_2.
Qed.

(** C3 as stated fails: the exception is the [ValueError] of [str.index],
    not a [MissingSentenceError]. *)
Lemma missing_sentence_not_reported :
  text2labels (u "abc") [u "xyz"] = Raise ValueError ∧
  text2labels (u "abc") [u "xyz"] ≠ Raise MissingSentenceError.
Proof. split; [vm_compute; reflexivity | vm_compute; discriminate]. Qed.

(** C3, amended: when some sentence of the list does not occur in the text,
    [text2labels] returns no labels at all; it fails with the [ValueError]
    raised by [text.index(sent)]. *)
Theorem text2labels_missing_sentence (text : str) (sents : list str) :
  (∃ sent, sent ∈ sents ∧ ¬ occurs sent text) →
  text2labels text sents = Raise ValueError.
Proof.
  intros (sent & Hin & Hno). unfold text2labels.
  rewrite mark_sents_missing; [done|].
  exists sent. split; [done|]. by apply find_None.
Qed.

Lemma text2labels_missing_sentence_witness :
  (∃ sent, sent ∈ [u "xyz"] ∧ ¬ occurs sent (u "abc")) ∧
  text2labels (u "abc") [u "xyz"] = Raise ValueError.
Proof.
  assert (∃ sent, sent ∈ [u "xyz"] ∧ ¬ occurs sent (u "abc")) as H.
  { exists (u "xyz"). split; [apply list_elem_of_here|].
    apply find_None. vm_compute. reflexivity. }
  split; [exact H | exact (text2labels_missing_sentence _ _ H)].
Defined.

(** C6: one feature vector per character, and one label per character
    whenever every sentence occurs in the text. *)
Theorem length_invariant (lower : char → str) (isupper isnumeric : char → bool) :
  (∀ text, ∃ features,
      sent2features lower isupper isnumeric text = Ok features ∧
      length features = length text) ∧
  (∀ text sents,
      Forall (λ sent, occurs sent text) sents →
      ∃ labels, text2labels text sents = Ok labels ∧ length labels = length text).
Proof.
  split.
  - apply sent2features_length.
  - intros text sents Hall.
    destruct (text2labels_lookup text sents Hall) as (labels & Hl & Hlen & _).
    eauto.
Qed.

Lemma length_invariant_witness :
  (∃ features,
      sent2features AsciiDb.lower AsciiDb.isupper AsciiDb.isnumeric (u "Hi 5")
      = Ok features ∧ length features = 4) ∧
  Forall (λ sent, occurs sent (u "ab b")) [u "ab"; u "b"] ∧
  ∃ labels, text2labels (u "ab b") [u "ab"; u "b"] = Ok labels ∧ length labels = 4.
Proof.
  assert (Forall (λ sent, occurs sent (u "ab b")) [u "ab"; u "b"]) as H.
  { repeat constructor.
    - by exists [], (u " b").
    - by exists (u "a"), (u " b"). }
  pose proof (length_invariant AsciiDb.lower AsciiDb.isupper AsciiDb.isnumeric)
    as [Hf Hl].
  split; [exact (Hf (u "Hi 5")) | split; [exact H | exact (Hl _ _ H)]].
Defined.

(** C7: the scenario of the docstring. *)
Theorem concrete_scenario :
  text2labels (u "привет. меня зовут аня.") [u "привет."; u "меня зовут аня."]
  = Ok (replicate 7 IN_SENTENCE ++ [BOUNDARY] ++ replicate 15 IN_SENTENCE) ∧
  length (replicate 7 IN_SENTENCE ++ [BOUNDARY] ++ replicate 15 IN_SENTENCE) = 23 ∧
  length (u "привет. меня зовут аня.") = 23 ∧
  text2sentences (u "привет. меня зовут аня.")
    (replicate 7 IN_SENTENCE ++ [BOUNDARY] ++ replicate 15 IN_SENTENCE)
  = ([u "привет."; u "меня зовут аня."], None).
Proof. repeat split; vm_compute; reflexivity. Qed.

(** *** Label codec: decoding *)

(** C4 as stated fails: with fewer labels than characters, decoding
    succeeds on the labelled prefix. *)
Lemma length_mismatch_not_reported :
  length (u "ab") ≠ length [u "0"] ∧
  text2sentences (u "ab") [u "0"] = ([u "a"], None).
Proof. split; [vm_compute; lia | vm_compute; reflexivity]. Qed.

(** C4, amended: [text2sentences] compares no lengths and never fails with
    a [LengthMismatchError].  With fewer labels than characters it ends
    normally and yields what the first [len(labels)] characters decode to;
    with more labels than characters it fails with [IndexError] when some
    label at a position past the end of the text is not ['1'], and ends
    normally otherwise. *)
Theorem text2sentences_length_mismatch (text : str) (labels : list str) :
  length text ≠ length labels →
  (text2sentences text labels).2 ≠ Some LengthMismatchError ∧
  (length labels < length text →
     text2sentences text labels
     = text2sentences (take (length labels) text) labels ∧
     (text2sentences text labels).2 = None) ∧
  (length text < length labels →
     (text2sentences text labels).2
     = if forallb (λ l, bool_decide (l = BOUNDARY)) (drop (length text) labels)
       then None else Some IndexError).
Proof.
  intros _. unfold text2sentences. split; [|split].
  - rewrite loop_outcome. by destruct (forallb _ _).
  - intros Hlt. split; [apply loop_take|].
    by rewrite loop_outcome, drop_ge by lia.
  - intros _. apply loop_outcome.
Qed.

Lemma text2sentences_length_mismatch_witness :
  length (u "ab") ≠ length [u "0"] ∧
  (text2sentences (u "ab") [u "0"]).2 ≠ Some LengthMismatchError ∧
  (length [u "0"] < length (u "ab") →
     text2sentences (u "ab") [u "0"]
     = text2sentences (take (length [u "0"]) (u "ab")) [u "0"] ∧
     (text2sentences (u "ab") [u "0"]).2 = None) ∧
  (length (u "ab") < length [u "0"] →
     (text2sentences (u "ab") [u "0"]).2
     = if forallb (λ l, bool_decide (l = BOUNDARY)) (drop (length (u "ab")) [u "0"])
       then None else Some IndexError).
Proof.
  assert (length (u "ab") ≠ length [u "0"]) as H by (vm_compute; lia).
  split; [exact H | exact (text2sentences_length_mismatch _ _ H)].
Defined.

Lemma kept_binary (text : str) (labels : list str) :
  Forall (λ l, l = IN_SENTENCE ∨ l = BOUNDARY) labels →
  kept text labels = in_sentence_chars text labels.
Proof.
  intros Hall. revert text.
  induction Hall as [|l labels Hl _ IH]; intros text;
    [by destruct text|].
  destruct text as [|c text]; [done|].
  unfold kept, in_sentence_chars in *. simpl zip.
  destruct Hl as [->| ->].
  - rewrite !filter_cons_True by done. rewrite !fmap_cons. by rewrite IH.
  - rewrite !filter_cons_False by (simpl; naive_solver). apply IH.
Qed.

(** C5: decoding never invents characters.  For a label sequence over
    ['0'] and ['1'] as long as the text, the generator ends normally and
    the sentences it yields, concatenated in order, are exactly the
    characters of the text labelled ['0']. *)
Theorem decode_never_invents (text : str) (labels : list str) :
  length text = length labels →
  Forall (λ l, l = IN_SENTENCE ∨ l = BOUNDARY) labels →
  ∃ sentences,
    text2sentences text labels = (sentences, None) ∧
    concat sentences = in_sentence_chars text labels.
Proof.
  intros Hlen Hall. exists (text2sentences text labels).1. split.
  - unfold text2sentences. by rewrite (loop_pieces text labels []).
  - unfold text2sentences. rewrite loop_concat by done.
    by rewrite kept_binary.
Qed.

Lemma decode_never_invents_witness :
  ∃ sentences,
    text2sentences (u "ab cd") [u "0"; u "0"; u "1"; u "1"; u "0"]
    = (sentences, None) ∧
    concat sentences = u "abd".
Proof.
  apply (decode_never_invents (u "ab cd") [u "0"; u "0"; u "1"; u "1"; u "0"]).
  - reflexivity.
  - repeat (apply Forall_cons_2; [first [by left | by right]|]). apply Forall_nil_2.
Defined.

Lemma extend_pieces (tl : list (char * str)) : extend [] (pieces tl) = pieces tl.
Proof.
  destruct tl as [|[c l] tl]; [done|]. simpl.
  case_bool_decide; [done|]. by destruct (pieces tl).
Qed.

(** C10: the decoder tests for ['1'] only.  For labels as long as the
    text, the generator ends normally and yields the non-empty pieces into
    which the positions labelled exactly ['1'] cut the text, every other
    position contributing its character to the current piece; so the
    output is unchanged when every label other than ['1'] is replaced by
    ['0'], whatever string it was. *)
Theorem decode_tests_boundary_only (text : str) (labels : list str) :
  length text = length labels →
  text2sentences text labels = (decode_spec text labels, None) ∧
  text2sentences text labels = text2sentences text (as_binary <$> labels).
Proof.
  intros Hlen. unfold text2sentences. split.
  - rewrite loop_pieces by done. by rewrite extend_pieces.
  - by rewrite loop_as_binary.
Qed.

Lemma decode_tests_boundary_only_witness :
  text2sentences (u "ab cd") [u "0"; u "x"; u "1"; u ""; u "10"]
  = ([u "ab"; u "cd"], None) ∧
  text2sentences (u "ab cd") [u "0"; u "x"; u "1"; u ""; u "10"]
  = text2sentences (u "ab cd") [u "0"; u "0"; u "1"; u "0"; u "0"].
Proof.
  apply (decode_tests_boundary_only (u "ab cd")
           [u "0"; u "x"; u "1"; u ""; u "10"]).
  reflexivity.
Defined.

(** *** Round trip *)

(** C1 as stated fails.  ["ab b"] is reconstructed by the sentences ["ab"]
    and ["b"] with one space between them, but [text.index("b")] finds the
    ["b"] inside ["ab"], so the second sentence is never marked and is lost
    in decoding. *)
Lemma roundtrip_first_occurrence_hazard :
  reconstructs (u "ab b") [u "ab"; u "b"] ∧
  roundtrip (u "ab b") [u "ab"; u "b"] = Ok ([u "ab"], None) ∧
  roundtrip (u "ab b") [u "ab"; u "b"] ≠ Ok ([u "ab"; u "b"], None).
Proof.
  split; [|split; [vm_compute; reflexivity | vm_compute; discriminate]].
  exists [], [(u "ab", u " "); (u "b", [])]. repeat split; try done.
  apply NoDup_cons. split; [|apply NoDup_singleton].
  intros Hin%list_elem_of_singleton. vm_compute in Hin. discriminate.
Qed.

(** A separator made of the character ['0'] is not told apart from the
    sentences around it. *)
Example roundtrip_zero_separator :
  reconstructs (u "a0b") [u "a"; u "b"] ∧
  roundtrip (u "a0b") [u "a"; u "b"] = Ok ([u "a0b"], None).
Proof.
  split; [|vm_compute; reflexivity].
  exists [], [(u "a", u "0"); (u "b", [])]. repeat split; try done.
  apply NoDup_cons. split; [|apply NoDup_singleton].
  intros Hin%list_elem_of_singleton. vm_compute in Hin. discriminate.
Qed.

(** C1, amended: for a text laid out as a leading separator followed by
    non-empty sentences, each with its trailing separator (non-empty
    between two sentences), such that no sentence occurs in the text before
    its own position and no separator contains the character ['0'],
    decoding the encoded labels yields exactly the sentences, in order. *)
Theorem roundtrip_segmented (lead : str) (body : list (str * str)) :
  separated body →
  Forall2 (λ sent start, find (lead ++ flat body) sent = Some start)
          body.*1 (offsets (length lead) body) →
  Forall (λ sep, 48%N ∉ sep) (lead :: body.*2) →
  roundtrip (lead ++ flat body) body.*1 = Ok (body.*1, None).
Proof.
  intros Hsep Hfirst Hzero. unfold roundtrip.
  rewrite text2labels_segmented by done. simpl.
  by rewrite text2sentences_segmented.
Qed.

Lemma roundtrip_segmented_witness :
  roundtrip (u "привет. меня зовут аня.") [u "привет."; u "меня зовут аня."]
  = Ok ([u "привет."; u "меня зовут аня."], None).
Proof.
  apply (roundtrip_segmented [] [(u "привет.", u " "); (u "меня зовут аня.", [])]).
  - repeat split; done.
  - repeat (apply Forall2_cons_2; [vm_compute; reflexivity|]). apply Forall2_nil_2.
  - repeat (apply Forall_cons_2;
            [vm_compute; intros Hin; repeat (apply elem_of_cons in Hin as [Hin|Hin];
                                             [discriminate|]);
             by apply elem_of_nil in Hin|]).
    apply Forall_nil_2.
Defined.

Lemma first_occurrences_lt (text : str) (body : list (str * str)) (start : nat) :
  separated body →
  Forall2 (λ sent at_, find text sent = Some at_) body.*1 (offsets start body) →
  Forall (λ sent, ∃ at_, find text sent = Some at_ ∧ start ≤ at_) body.*1.
Proof.
  revert start. induction body as [|seg body IH]; intros start Hsep Hfirst;
    [constructor|].
  destruct Hsep as (Hs & _ & Hsep). simpl in Hfirst.
  apply Forall2_cons in Hfirst as [Hseg Hfirst].
  rewrite fmap_cons. apply Forall_cons_2; [eauto|].
  eapply Forall_impl; [apply (IH _ Hsep Hfirst)|].
  intros sent (at_ & Hat & Hle). exists at_. split; [done | lia].
Qed.

(** The conditions of the amended round trip already exclude duplicated
    sentences: such a document is one that its sentences reconstruct. *)
Lemma first_occurrences_reconstructs (lead : str) (body : list (str * str)) :
  separated body →
  Forall2 (λ sent start, find (lead ++ flat body) sent = Some start)
          body.*1 (offsets (length lead) body) →
  reconstructs (lead ++ flat body) body.*1.
Proof.
  intros Hsep Hfirst. exists lead, body. repeat split; [done|].
  revert Hsep Hfirst. generalize (lead ++ flat body) as text, (length lead) as start.
  induction body as [|seg body IH]; intros text start Hsep Hfirst;
    [apply NoDup_nil_2|].
  destruct Hsep as (Hs & _ & Hsep). simpl in Hfirst.
  apply Forall2_cons in Hfirst as [Hseg Hfirst].
  rewrite fmap_cons. apply NoDup_cons_2; [|by eapply IH].
  intros Hin.
  pose proof (first_occurrences_lt _ _ _ Hsep Hfirst) as Hlt.
  rewrite Forall_forall in Hlt. destruct (Hlt _ Hin) as (at_ & Hat & Hle).
  rewrite Hseg in Hat. injection Hat as <-.
  destruct seg.1; [done | simpl in Hle; lia].
Qed.

(** *** Feature extractor *)

(** C8: context groups that would fall outside ["ab"] are omitted.  The
    vector of ['a'] is its own three tokens followed by the three [+1]
    tokens of ['b'], with no [-1], [-2] or [+2] token; the vector of ['b']
    is its own three tokens followed by the three [-1] tokens of ['a'],
    with no [+1], [+2] or [-2] token. *)
Theorem context_truncation (lower : char → str) (isupper isnumeric : char → bool) :
  let tok := tokens lower isupper isnumeric in
  ∃ first second,
    sent2features lower isupper isnumeric (u "ab") = Ok [first; second] ∧
    first = tok [] 97%N ++ tok (u "+1:") 98%N ∧
    second = tok [] 98%N ++ tok (u "-1:") 97%N ∧
    filter (tagged (u "+1:")) first = tok (u "+1:") 98%N ∧
    Forall (λ f, ¬ tagged (u "-1:") f ∧ ¬ tagged (u "-2:") f
                 ∧ ¬ tagged (u "+2:") f) first ∧
    filter (tagged (u "-1:")) second = tok (u "-1:") 97%N ∧
    Forall (λ f, ¬ tagged (u "+1:") f ∧ ¬ tagged (u "+2:") f
                 ∧ ¬ tagged (u "-2:") f) second.
Proof.
  intros tok. eexists _, _. split; [|split; [reflexivity|split; [reflexivity|]]].
  - vm_compute. reflexivity.
  - repeat split; try (vm_compute; reflexivity);
      repeat (apply Forall_cons_2;
              [repeat split; vm_compute; discriminate|]); apply Forall_nil_2.
Qed.

(** *** Dataset builder *)

Lemma text2labels_not_found (text : str) (sents : list str) :
  forallb (λ sent, bool_decide (is_Some (find text sent))) sents = false →
  text2labels text sents = Raise ValueError.
Proof.
  intros Hno. unfold text2labels. rewrite mark_sents_missing; [done|].
  induction sents as [|s sents IH]; [done|]. simpl in Hno.
  apply andb_false_iff in Hno as [Hs|Hno].
  - exists s. split; [apply list_elem_of_here|].
    apply bool_decide_eq_false in Hs. destruct (find text s); [|done].
    destruct Hs. eauto.
  - destruct (IH Hno) as (sent & Hin & Hf). exists sent.
    split; [by apply list_elem_of_further | done].
Qed.

Lemma all_found_occurs (text : str) (sents : list str) :
  forallb (λ sent, bool_decide (is_Some (find text sent))) sents = true →
  Forall (λ sent, occurs sent text) sents.
Proof.
  induction sents as [|s sents IH]; intros Hall; [constructor|].
  simpl in Hall. apply andb_true_iff in Hall as [Hs Hall].
  apply Forall_cons_2; [|by apply IH].
  apply bool_decide_eq_true in Hs as [i Hi]. by eapply find_occurs.
Qed.

Section BuilderFacts.

Variable lower : char → str.
Variable isupper : char → bool.
Variable isnumeric : char → bool.
Variable kwargs_t : Type.

Lemma encodable_occurs (corpus : list document) :
  encodable corpus = true →
  Forall (λ d, Forall (λ sent, occurs sent (raw d)) (raw_sents d)) corpus.
Proof.
  induction corpus as [|d corpus IH]; intros Henc; [constructor|].
  simpl in Henc. apply andb_true_iff in Henc as [Hd Henc].
  apply Forall_cons_2; [by apply all_found_occurs | by apply IH].
Qed.

Lemma documents_loop_not_encodable (corpus : list document)
    (X : list feature_seq) (y : list label_seq) :
  encodable corpus = false →
  documents_loop lower isupper isnumeric corpus X y = Raise ValueError.
Proof.
  revert X y. induction corpus as [|d corpus IH]; intros X y Henc; [done|].
  simpl in Henc. apply andb_false_iff in Henc as [Hd|Henc].
  - simpl. by rewrite text2labels_not_found.
  - simpl. destruct (text2labels (raw d) (raw_sents d)) as [labels|e] eqn:Hl.
    + destruct (sent2features_length lower isupper isnumeric (raw d))
        as (features & -> & _).
      simpl. by apply IH.
    + destruct (forallb (λ sent, bool_decide (is_Some (find (raw d) sent)))
                        (raw_sents d)) eqn:Hd.
      * apply all_found_occurs in Hd.
        destruct (text2labels_lookup _ _ Hd) as (labels & Hok & _). congruence.
      * rewrite text2labels_not_found in Hl by done. by injection Hl as <-.
Qed.

(** C9, evaluated where it fails.  The name [train_test_split] is bound
    nowhere in the module, so the [return] statement of [get_train_data]
    raises [NameError] once the loop over the documents is through (and
    the loop itself raises [ValueError] at the first document with a
    sentence missing from its text): no corpus gets a four-way split. *)
Theorem get_train_data_unbound_name (corpus : list document) (kwargs : kwargs_t) :
  get_train_data lower isupper isnumeric kwargs_t
    (module_train_test_split kwargs_t) corpus kwargs
  = Raise (if encodable corpus then NameError else ValueError).
Proof.
  unfold get_train_data, module_train_test_split.
  destruct (encodable corpus) eqn:Henc.
  - destruct (documents_loop_extends lower isupper isnumeric corpus [] []
                (encodable_occurs corpus Henc)) as (X & y & -> & _).
    reflexivity.
  - by rewrite documents_loop_not_encodable.
Qed.

End BuilderFacts.

Example get_train_data_empty_corpus :
  get_train_data AsciiDb.lower AsciiDb.isupper AsciiDb.isnumeric unit
    (module_train_test_split unit) [] tt
  = Raise NameError.
Proof. reflexivity. Qed.

(** ** Further properties of the label codec *)

Lemma text2labels_imap (text : str) (sents : list str) :
  found_all text sents = true →
  text2labels text sents = Ok (imap (label_at text sents) text).
Proof.
  intros Hall%all_found_occurs.
  destruct (text2labels_lookup text sents Hall) as (labels & -> & Hlen & Hp).
  f_equal. apply list_eq. intros p. rewrite list_lookup_imap.
  destruct (text !! p) as [c|] eqn:Hc; simpl.
  - by apply Hp.
  - apply lookup_ge_None. apply lookup_ge_None in Hc. lia.
Qed.

Lemma marked_elem_of (text : str) (sents : list str) (p : nat) :
  marked text sents p = true ↔ ∃ sent, sent ∈ sents ∧ covers text p sent = true.
Proof.
  unfold marked. induction sents as [|s sents IH]; simpl.
  - split; [done | intros (sent & Hin & _); by apply elem_of_nil in Hin].
  - rewrite orb_true_iff, IH. split.
    + intros [Hs|(sent & Hin & Hc)];
        [exists s; split; [apply list_elem_of_here | done]
        |exists sent; split; [by apply list_elem_of_further | done]].
    + intros (sent & Hin & Hc). apply elem_of_cons in Hin as [->|Hin]; eauto.
Qed.

Lemma found_all_elem_of (text : str) (sents : list str) :
  found_all text sents = true ↔ ∀ sent, sent ∈ sents → is_Some (find text sent).
Proof.
  unfold found_all. induction sents as [|s sents IH]; simpl.
  - split; [intros _ sent Hin; by apply elem_of_nil in Hin | done].
  - rewrite andb_true_iff, bool_decide_eq_true, IH. split.
    + intros [Hs Hall] sent [->|Hin]%elem_of_cons; eauto.
    + intros Hall. split; [apply Hall, list_elem_of_here|].
      intros sent Hin. by apply Hall, list_elem_of_further.
Qed.

Lemma text2labels_cases (text : str) (sents : list str) :
  text2labels text sents
  = if found_all text sents then Ok (imap (label_at text sents) text)
    else Raise ValueError.
Proof.
  destruct (found_all text sents) eqn:Hall.
  - by apply text2labels_imap.
  - by apply text2labels_not_found.
Qed.

Lemma finalize_binary (labels : list str) :
  Forall (λ l, l = IN_SENTENCE ∨ l = BOUNDARY) (finalize labels).
Proof.
  rewrite finalize_fmap. apply Forall_fmap, Forall_forall.
  intros l _. simpl. unfold finalized. case_bool_decide as Hl; [by right|].
  left. by destruct (decide (l = IN_SENTENCE)).
Qed.

(** X1: [text2labels] in closed form.  It succeeds exactly when every
    sentence is found in the text, and then labels position [p] with ['0']
    if [p] lies in the first-occurrence span of some sentence or the text
    holds the character ['0'] there, and with ['1'] otherwise; when a
    sentence is missing the only exception it raises is [ValueError]. *)
Theorem text2labels_closed_form (text : str) (sents : list str) :
  text2labels text sents
  = if found_all text sents then Ok (imap (label_at text sents) text)
    else Raise ValueError.
Proof. apply text2labels_cases. Qed.

(** X2: whatever the text holds, the labels returned are all ['0'] or
    ['1']. *)
Theorem text2labels_binary (text : str) (sents labels : list str) :
  text2labels text sents = Ok labels →
  Forall (λ l, l = IN_SENTENCE ∨ l = BOUNDARY) labels.
Proof.
  unfold text2labels. destruct (mark_sents text sents (chars text)) as [ls|e];
    simpl; [|done].
  intros [= <-]. apply finalize_binary.
Qed.

Lemma text2labels_binary_witness :
  Forall (λ l, l = IN_SENTENCE ∨ l = BOUNDARY)
         [IN_SENTENCE; BOUNDARY; IN_SENTENCE; BOUNDARY; IN_SENTENCE].
Proof.
  apply (text2labels_binary (u "a 0 b") [u "a"; u "b"]).
  vm_compute. reflexivity.
Defined.

(** X3: the labels depend on which sentences are listed, not on their
    order or multiplicity: two lists with the same elements give the same
    result, failures included. *)
Theorem text2labels_same_elements (text : str) (sents sents' : list str) :
  (∀ sent, sent ∈ sents ↔ sent ∈ sents') →
  text2labels text sents = text2labels text sents'.
Proof.
  intros Hsame. rewrite !text2labels_cases.
  assert (found_all text sents = found_all text sents') as <-.
  { apply eq_true_iff_eq. rewrite !found_all_elem_of.
    split; intros Hall sent Hin; apply Hall, Hsame, Hin. }
  destruct (found_all text sents); [|done].
  f_equal. apply imap_ext. intros p c _. unfold label_at.
  assert (marked text sents p = marked text sents' p) as <-; [|done].
  apply eq_true_iff_eq. rewrite !marked_elem_of.
  split; intros (sent & Hin & Hc); exists sent; (split; [by apply Hsame | done]).
Qed.

Lemma text2labels_same_elements_witness :
  text2labels (u "ab cd") [u "cd"; u "ab"; u "cd"]
  = text2labels (u "ab cd") [u "ab"; u "cd"].
Proof.
  apply text2labels_same_elements. intros sent.
  rewrite !elem_of_cons, !elem_of_nil. tauto.
Defined.

(** X4: an empty string among the sentences changes nothing: it is found
    at index 0 and its slice is empty. *)
Theorem text2labels_empty_sentence (text : str) (sents : list str) :
  text2labels text (filter nonempty sents) = text2labels text sents.
Proof.
  rewrite !text2labels_cases.
  assert (found_all text (filter nonempty sents) = found_all text sents) as ->.
  { apply eq_true_iff_eq. rewrite !found_all_elem_of. split; intros Hall sent Hin.
    - destruct sent as [|c sent]; [by destruct text; eexists|].
      apply Hall, list_elem_of_filter. by split.
    - apply list_elem_of_filter in Hin as [_ Hin]. by apply Hall. }
  destruct (found_all text sents); [|done].
  f_equal. apply imap_ext. intros p c _. unfold label_at.
  assert (marked text (filter nonempty sents) p = marked text sents p) as ->;
    [|done].
  apply eq_true_iff_eq. rewrite !marked_elem_of. split.
  - intros (sent & [_ Hin]%list_elem_of_filter & Hc). eauto.
  - intros (sent & Hin & Hc). exists sent. split; [|done].
    apply list_elem_of_filter. split; [|done].
    intros ->. unfold covers in Hc. destruct (find text []); [|done].
    apply andb_true_iff in Hc as [?%Nat.leb_le ?%Nat.ltb_lt]. simpl in *. lia.
Qed.

(** X5: the first occurrence of every listed sentence is labelled ['0']
    throughout. *)
Theorem text2labels_first_occurrence (text : str) (sents labels : list str)
    (sent : str) (start p : nat) :
  text2labels text sents = Ok labels →
  sent ∈ sents → find text sent = Some start →
  start ≤ p < start + length sent →
  labels !! p = Some IN_SENTENCE.
Proof.
  intros Hl Hin Hstart Hp. rewrite text2labels_cases in Hl.
  destruct (found_all text sents); [|done]. injection Hl as <-.
  pose proof (find_Some _ _ _ Hstart) as [_ Hb].
  destruct (lookup_lt_is_Some_2 text p) as [c Hc]; [lia|].
  rewrite list_lookup_imap, Hc. simpl. unfold label_at.
  assert (marked text sents p = true) as ->; [|done].
  apply marked_elem_of. exists sent. split; [done|].
  unfold covers. rewrite Hstart. apply andb_true_iff.
  split; [apply Nat.leb_le | apply Nat.ltb_lt]; lia.
Qed.

Lemma text2labels_first_occurrence_witness :
  [IN_SENTENCE; IN_SENTENCE; BOUNDARY; BOUNDARY] !! 1 = Some IN_SENTENCE.
Proof.
  apply (text2labels_first_occurrence (u "ab b") [u "ab"; u "b"] _ (u "b") 1 1).
  - vm_compute. reflexivity.
  - apply list_elem_of_further, list_elem_of_here.
  - vm_compute. reflexivity.
  - vm_compute. lia.
Defined.

(** X6: listing more sentences never turns a ['0'] into a ['1']: every
    position that is a boundary for the longer list is one for the shorter
    list, which also encodes. *)
Theorem text2labels_monotone (text : str) (sents sents' labels' : list str) :
  sents ⊆ sents' →
  text2labels text sents' = Ok labels' →
  ∃ labels,
    text2labels text sents = Ok labels ∧
    ∀ p, labels' !! p = Some BOUNDARY → labels !! p = Some BOUNDARY.
Proof.
  intros Hsub Hl'. rewrite text2labels_cases in Hl'.
  destruct (found_all text sents') eqn:Hall'; [|done]. injection Hl' as <-.
  rewrite text2labels_cases.
  assert (found_all text sents = true) as ->.
  { apply found_all_elem_of. intros sent Hin.
    by apply (proj1 (found_all_elem_of text sents') Hall'), Hsub. }
  eexists. split; [done|]. intros p. rewrite !list_lookup_imap.
  destruct (text !! p) as [c|]; simpl; [|done]. unfold label_at.
  destruct (marked text sents p) eqn:Hm.
  - assert (marked text sents' p = true) as ->; [|done].
    apply marked_elem_of. apply marked_elem_of in Hm as (sent & Hin & Hc).
    exists sent. split; [by apply Hsub | done].
  - simpl. by destruct (marked text sents' p), (bool_decide (c = 48%N)).
Qed.

Lemma text2labels_monotone_witness :
  ∃ labels,
    text2labels (u "ab cd") [u "ab"] = Ok labels ∧
    ∀ p, [IN_SENTENCE; IN_SENTENCE; BOUNDARY; IN_SENTENCE; IN_SENTENCE] !! p
         = Some BOUNDARY → labels !! p = Some BOUNDARY.
Proof.
  apply (text2labels_monotone (u "ab cd") [u "ab"] [u "ab"; u "cd"]).
  - intros sent ->%list_elem_of_singleton. apply list_elem_of_here.
  - vm_compute. reflexivity.
Defined.

(** ** Further properties of the decoder *)

Lemma loop_nonempty (text : str) (i : nat) (labels : list str) (acc : str) :
  Forall nonempty (sentences_loop text i labels acc).1.
Proof.
  revert i acc. induction labels as [|l labels IH]; intros i acc.
  - simpl. destruct acc; repeat constructor. done.
  - cbn [sentences_loop]. case_bool_decide.
    + simpl. apply Forall_app. split; [|apply IH].
      destruct acc; repeat constructor. done.
    + destruct (text !! i); [apply IH | constructor].
Qed.

(** X7: the decoder never yields an empty sentence, whatever the text and
    the labels, also when it ends in an exception. *)
Theorem text2sentences_nonempty (text : str) (labels : list str) :
  Forall nonempty (text2sentences text labels).1.
Proof. apply loop_nonempty. Qed.

Lemma loop_all_boundary (text : str) (i : nat) (labels : list str) :
  Forall (λ l, l = BOUNDARY) labels →
  sentences_loop text i labels [] = ([], None).
Proof.
  intros Hall. revert i. induction Hall as [|l labels -> _ IH]; intros i; [done|].
  cbn [sentences_loop]. rewrite bool_decide_eq_true_2 by done. by rewrite IH.
Qed.

(** X8: when every label is ['1'] nothing is yielded and the generator ends
    normally, however many labels there are: the text is not read. *)
Theorem text2sentences_all_boundary (text : str) (labels : list str) :
  Forall (λ l, l = BOUNDARY) labels →
  text2sentences text labels = ([], None).
Proof. apply loop_all_boundary. Qed.

Lemma text2sentences_all_boundary_witness :
  text2sentences (u "a") [BOUNDARY; BOUNDARY; BOUNDARY] = ([], None).
Proof.
  apply text2sentences_all_boundary. by repeat (apply Forall_cons_2; [done|]).
Defined.

Lemma loop_no_boundary (text : str) (labels : list str) (acc : str) :
  length text = length labels →
  Forall (λ l, l ≠ BOUNDARY) labels →
  sentences_loop text 0 labels acc = (flush (acc ++ text), None).
Proof.
  intros Hlen Hall. revert text acc Hlen.
  induction Hall as [|l labels Hl _ IH]; intros text acc Hlen.
  - destruct text; [|done]. by rewrite app_nil_r.
  - destruct text as [|c text]; [done|]. injection Hlen as Hlen.
    rewrite loop_in_sentence, IH by done. by rewrite <- app_assoc.
Qed.

(** X9: with one label per character and no ['1'] among them, the whole
    text comes back as a single sentence (and nothing for the empty
    text). *)
Theorem text2sentences_no_boundary (text : str) (labels : list str) :
  length text = length labels →
  Forall (λ l, l ≠ BOUNDARY) labels →
  text2sentences text labels = (flush text, None).
Proof. intros Hlen Hall. by apply (loop_no_boundary text labels []). Qed.

Lemma text2sentences_no_boundary_witness :
  text2sentences (u "ab") [IN_SENTENCE; u "x"] = ([u "ab"], None).
Proof.
  apply (text2sentences_no_boundary (u "ab") [IN_SENTENCE; u "x"]).
  - reflexivity.
  - repeat (apply Forall_cons_2; [vm_compute; discriminate|]). apply Forall_nil_2.
Defined.

Lemma loop_split (t1 t2 : str) (c : char) (l1 l2 : list str) (acc : str) :
  length t1 = length l1 →
  sentences_loop (t1 ++ c :: t2) 0 (l1 ++ BOUNDARY :: l2) acc
  = ((sentences_loop t1 0 l1 acc).1 ++ (sentences_loop t2 0 l2 []).1,
     (sentences_loop t2 0 l2 []).2).
Proof.
  revert t1 acc. induction l1 as [|l l1 IH]; intros t1 acc Hlen.
  - destruct t1; [|done]. cbn [app]. by rewrite loop_boundary.
  - destruct t1 as [|c1 t1]; [done|]. injection Hlen as Hlen. cbn [app].
    destruct (decide (l = BOUNDARY)) as [->|Hl].
    + rewrite !loop_boundary, IH by done. cbn [fst snd]. by rewrite app_assoc.
    + rewrite !loop_in_sentence by done. by apply IH.
Qed.

(** X10: a ['1'] label cuts the decoding in two: the sentences of a text
    are those of the part before the boundary character followed by those
    of the part after it, each part decoded on its own. *)
Theorem text2sentences_split (t1 t2 : str) (c : char) (l1 l2 : list str) :
  length t1 = length l1 →
  text2sentences (t1 ++ c :: t2) (l1 ++ BOUNDARY :: l2)
  = ((text2sentences t1 l1).1 ++ (text2sentences t2 l2).1,
     (text2sentences t2 l2).2).
Proof. apply loop_split. Qed.

Lemma text2sentences_split_witness :
  text2sentences (u "ab" ++ 32%N :: u "cd")
                 ([u "0"; u "0"] ++ BOUNDARY :: [u "0"; u "0"])
  = ((text2sentences (u "ab") [u "0"; u "0"]).1
       ++ (text2sentences (u "cd") [u "0"; u "0"]).1,
     (text2sentences (u "cd") [u "0"; u "0"]).2).
Proof. apply text2sentences_split. reflexivity. Defined.

Lemma loop_occurs (text pre acc rest : str) (labels : list str) :
  text = pre ++ acc ++ rest →
  Forall (λ s, occurs s text) (sentences_loop rest 0 labels acc).1.
Proof.
  revert pre acc rest. induction labels as [|l labels IH]; intros pre acc rest ->.
  - simpl. destruct acc; [constructor|]. apply Forall_singleton. by exists pre, rest.
  - assert (Forall (λ s, occurs s (pre ++ acc ++ rest)) (flush acc)) as Hacc.
    { destruct acc; [constructor|]. apply Forall_singleton. by exists pre, rest. }
    destruct rest as [|c rest].
    + cbn [sentences_loop]. case_bool_decide; [|constructor].
      simpl. apply Forall_app. split; [done|].
      rewrite loop_nil_index. apply (IH (pre ++ acc) [] []).
      by rewrite !app_nil_r.
    + destruct (decide (l = BOUNDARY)) as [->|Hl].
      * rewrite loop_boundary. simpl. apply Forall_app. split; [done|].
        apply (IH (pre ++ acc ++ [c]) [] rest). simpl.
        by rewrite <- !app_assoc.
      * rewrite loop_in_sentence by done.
        apply (IH pre (acc ++ [c]) rest). by rewrite <- !app_assoc.
Qed.

(** X11: every sentence the decoder yields is a contiguous substring of the
    text, whatever the labels and however many of them there are. *)
Theorem text2sentences_occurs (text : str) (labels : list str) :
  Forall (λ s, occurs s text) (text2sentences text labels).1.
Proof. by apply (loop_occurs text [] [] text). Qed.

(** X12: decoding what was just encoded always ends normally, without
    [IndexError], whatever sentences were listed: the sentences yielded,
    concatenated, are the characters of the text labelled ['0']. *)
Theorem roundtrip_ends_normally (text : str) (sents labels : list str) :
  text2labels text sents = Ok labels →
  ∃ sentences,
    roundtrip text sents = Ok (sentences, None) ∧
    concat sentences = in_sentence_chars text labels.
Proof.
  intros Hl. unfold roundtrip. rewrite Hl. simpl.
  assert (length text = length labels) as Hlen.
  { rewrite text2labels_cases in Hl. destruct (found_all text sents); [|done].
    injection Hl as <-. by rewrite length_imap. }
  assert (Forall (λ l, l = IN_SENTENCE ∨ l = BOUNDARY) labels) as Hbin.
  { unfold text2labels in Hl.
    destruct (mark_sents text sents (chars text)); [|done].
    injection Hl as <-. apply finalize_binary. }
  exists (text2sentences text labels).1. unfold text2sentences. split.
  - by rewrite (loop_pieces text labels []).
  - rewrite loop_concat by done. by apply kept_binary.
Qed.

Lemma roundtrip_ends_normally_witness :
  ∃ sentences,
    roundtrip (u "ab b") [u "ab"; u "b"] = Ok (sentences, None) ∧
    concat sentences = u "ab".
Proof.
  apply (roundtrip_ends_normally (u "ab b") [u "ab"; u "b"]
           [IN_SENTENCE; IN_SENTENCE; BOUNDARY; BOUNDARY]).
  vm_compute. reflexivity.
Defined.

(** ** Further properties of the feature extractor *)

Lemma getitem_ge {A} (l : list A) (i : nat) :
  length l ≤ i → getitem l i = Raise IndexError.
Proof. intros Hi. unfold getitem. by rewrite lookup_ge_None_2. Qed.

Lemma getitem_lookup {A} (l : list A) (i : nat) (x : A) :
  l !! i = Some x → getitem l i = Ok x.
Proof. intros Hi. unfold getitem. by rewrite Hi. Qed.

Lemma ahead_ltb (n i k : nat) :
  (Z.of_nat i <? Z.of_nat n - Z.of_nat k)%Z = (i + k <? n).
Proof.
  destruct (i + k <? n) eqn:E.
  - apply Nat.ltb_lt in E. apply Z.ltb_lt. lia.
  - apply Nat.ltb_ge in E. apply Z.ltb_ge. lia.
Qed.

Lemma ltb_length_lookup {A} (l1 l2 : list A) (k : nat) :
  l1 !! k = l2 !! k → (k <? length l1) = (k <? length l2).
Proof.
  intros Hk. destruct (k <? length l2) eqn:E.
  - apply Nat.ltb_lt in E. apply Nat.ltb_lt.
    apply lookup_lt_is_Some. rewrite Hk. by apply lookup_lt_is_Some.
  - apply Nat.ltb_ge in E. apply Nat.ltb_ge.
    apply lookup_ge_None. rewrite Hk. by apply lookup_ge_None.
Qed.

Ltac feature_group sentence :=
  match goal with
  | |- context [if ?b then _ else _] =>
    let E := fresh "E" in
    destruct b eqn:E;
    [ apply Nat.ltb_lt in E;
      match goal with
      | |- context [getitem sentence ?j] =>
        let Hj := fresh "Hj" in
        destruct (getitem_lt sentence j) as [? Hj]; [lia|]; rewrite Hj
      end
    | apply Nat.ltb_ge in E ]; cbn [mbind result_bind]
  end.

Section FeatureShape.

Variable lower : char → str.
Variable isupper : char → bool.
Variable isnumeric : char → bool.

(** X13: the shape of a feature vector.  For a position inside the text,
    [char2features] returns three tokens per group: the character's own
    three come first, and there is one more group for each of the up to
    two characters before and up to two after, so between 3 and 15 tokens
    and exactly 15 for a character at least two away from both ends. *)
Theorem char2features_shape (sentence : str) (i : nat) (c : char) :
  sentence !! i = Some c →
  ∃ features,
    char2features lower isupper isnumeric sentence i = Ok features ∧
    take 3 features = tokens lower isupper isnumeric [] c ∧
    length features = 3 * (1 + context_groups (length sentence) i).
Proof.
  intros Hc. pose proof (lookup_lt_Some _ _ _ Hc) as Hi.
  unfold char2features. rewrite (getitem_lookup _ _ _ Hc). cbn [mbind result_bind].
  change 1%Z with (Z.of_nat 1). change 2%Z with (Z.of_nat 2).
  rewrite !ahead_ltb. unfold context_groups.
  do 4 feature_group sentence;
    (eexists; split; [reflexivity|]; split; [reflexivity|]);
    rewrite ?length_app; simpl; lia.
Qed.

(** X14: asked for a position past the end of the text, [char2features]
    raises [IndexError]. *)
Theorem char2features_out_of_range (sentence : str) (i : nat) :
  length sentence ≤ i →
  char2features lower isupper isnumeric sentence i = Raise IndexError.
Proof.
  intros Hi. unfold char2features. by rewrite (getitem_ge sentence i) by done.
Qed.

(** X15: the context window is two characters wide on either side: two
    texts that agree (end of text included) from position [i - 2] to
    position [i + 2] give position [i] the same features. *)
Theorem char2features_window (s1 s2 : str) (i : nat) :
  (∀ j, i - 2 ≤ j ≤ i + 2 → s1 !! j = s2 !! j) →
  char2features lower isupper isnumeric s1 i
  = char2features lower isupper isnumeric s2 i.
Proof.
  intros Hw. unfold char2features, getitem.
  change 1%Z with (Z.of_nat 1). change 2%Z with (Z.of_nat 2).
  rewrite !ahead_ltb.
  rewrite (ltb_length_lookup s1 s2 (i + 1)), (ltb_length_lookup s1 s2 (i + 2))
    by (apply Hw; lia).
  by rewrite (Hw i), (Hw (i - 1)), (Hw (i - 2)), (Hw (i + 1)), (Hw (i + 2)) by lia.
Qed.

(** X16: the [i]-th vector of [sent2features] is [char2features] at [i]:
    the sequence never fails and pairs each character with the features of
    its own position. *)
Theorem sent2features_lookup (sent : str) :
  ∃ features,
    sent2features lower isupper isnumeric sent = Ok features ∧
    ∀ i, i < length sent →
      ∃ f, features !! i = Some f ∧
           char2features lower isupper isnumeric sent i = Ok f.
Proof.
  unfold sent2features.
  assert (∀ (start : nat) (n : nat), start + n ≤ length sent →
            ∃ features,
              comprehension (char2features lower isupper isnumeric sent)
                            (seq start n) = Ok features ∧
              ∀ k, k < n → ∃ f, features !! k = Some f ∧
                   char2features lower isupper isnumeric sent (start + k) = Ok f)
    as Hgen.
  { intros start n. revert start. induction n as [|n IH]; intros start Hb.
    - exists []. split; [done|]. intros k Hk. lia.
    - destruct (char2features_in_range lower isupper isnumeric sent start)
        as [f Hf]; [lia|].
      destruct (IH (S start)) as (fs & Hfs & Hk); [lia|].
      exists (f :: fs). simpl. rewrite Hf. simpl. rewrite Hfs. simpl.
      split; [done|]. intros [|k] Hlt.
      + exists f. by rewrite Nat.add_0_r.
      + destruct (Hk k) as (f' & Hl & Hc); [lia|]. exists f'.
        split; [done|]. by rewrite <- Nat.add_succ_comm. }
  destruct (Hgen 0 (length sent)) as (features & Hf & Hk); [lia|].
  exists features. split; [done|]. intros i Hi. by apply Hk.
Qed.

End FeatureShape.

Lemma char2features_shape_witness :
  ∃ features,
    char2features AsciiDb.lower AsciiDb.isupper AsciiDb.isnumeric (u "Hello") 2
    = Ok features ∧
    take 3 features = [u "lower=l"; u "isupper=False"; u "isnumeric=False"] ∧
    length features = 15.
Proof.
  apply (char2features_shape AsciiDb.lower AsciiDb.isupper AsciiDb.isnumeric
           (u "Hello") 2 108%N).
  reflexivity.
Defined.

Lemma char2features_out_of_range_witness :
  char2features AsciiDb.lower AsciiDb.isupper AsciiDb.isnumeric (u "ab") 2
  = Raise IndexError.
Proof. apply char2features_out_of_range. vm_compute. lia. Defined.

Lemma char2features_window_witness :
  char2features AsciiDb.lower AsciiDb.isupper AsciiDb.isnumeric (u "abcdefg") 2
  = char2features AsciiDb.lower AsciiDb.isupper AsciiDb.isnumeric (u "abcdeXYZ") 2.
Proof.
  apply char2features_window. intros j Hj.
  destruct j as [|[|[|[|[|j]]]]]; try reflexivity. simpl in Hj. lia.
Defined.

(** ** Further properties of the dataset builder and the orchestration *)

Lemma zip_take_min {A B} (l : list A) (k : list B) :
  zip (take (length l `min` length k) l) (take (length l `min` length k) k)
  = zip l k.
Proof.
  revert k. induction l as [|x l IH]; intros k; [done|].
  destruct k as [|y k]; [done|]. simpl. by rewrite IH.
Qed.

Section PipelineFacts.

Variable lower : char → str.
Variable isupper : char → bool.
Variable isnumeric : char → bool.
Variable kwargs_t : Type.

(** X17: were [train_test_split] bound to a callable, the builder would
    call it once, on the feature sequences and label sequences of the
    documents, both in corpus order and paired document by document, and
    return what it returns. *)
Theorem get_train_data_pairs (callee : splitter kwargs_t)
    (corpus : list document) (kwargs : kwargs_t) :
  encodable corpus = true →
  ∃ X y,
    get_train_data lower isupper isnumeric kwargs_t (Some callee) corpus kwargs
    = callee X y kwargs ∧
    length X = length corpus ∧ length y = length corpus ∧
    ∀ i d, corpus !! i = Some d →
      ∃ features labels,
        X !! i = Some features ∧ y !! i = Some labels ∧
        sent2features lower isupper isnumeric (raw d) = Ok features ∧
        text2labels (raw d) (raw_sents d) = Ok labels.
Proof.
  intros Henc%encodable_occurs.
  destruct (documents_loop_extends lower isupper isnumeric corpus [] [] Henc)
    as (X & y & Hloop & HX & Hy).
  exists X, y. unfold get_train_data. rewrite Hloop. simpl.
  split; [done|].
  split; [symmetry; by eapply Forall2_length|].
  split; [symmetry; by eapply Forall2_length|].
  intros i d Hd.
  destruct (Forall2_lookup_l _ _ _ _ _ HX Hd) as (features & Hf & Hfd).
  destruct (Forall2_lookup_l _ _ _ _ _ Hy Hd) as (labels & Hl & Hld).
  by exists features, labels.
Qed.

(** X18: one document with a sentence missing from its text aborts the
    whole build with [ValueError]: the remaining documents are not
    processed and the partition function, bound or not, is never called. *)
Theorem get_train_data_aborts (train_test_split : option (splitter kwargs_t))
    (corpus : list document) (kwargs : kwargs_t) :
  encodable corpus = false →
  get_train_data lower isupper isnumeric kwargs_t train_test_split corpus kwargs
  = Raise ValueError.
Proof.
  intros Henc. unfold get_train_data.
  by rewrite documents_loop_not_encodable.
Qed.

Variable trainer : Type.
Variable Trainer : result trainer.
Variable set_params : trainer → list (str * param_value) → result trainer.
Variable append : trainer → feature_seq → label_seq → result trainer.
Variable train_model : trainer → str → result trainer.
Variable tag : feature_seq → result (list str).

(** X19: [train] submits pairs only.  The test sets and the keyword
    arguments are never used, and when [X_train] and [y_train] differ in
    length the surplus sequences of the longer one are silently dropped:
    the result is that of training on the two lists cut to the shorter
    length. *)
Theorem train_truncates (X_train X_test X_test' : list feature_seq)
    (y_train y_test y_test' : list label_seq) (kwargs kwargs' : kwargs_t) :
  let n := length X_train `min` length y_train in
  train trainer Trainer set_params append train_model kwargs_t
        X_train X_test y_train y_test kwargs
  = train trainer Trainer set_params append train_model kwargs_t
          (take n X_train) X_test' (take n y_train) y_test' kwargs'.
Proof. intros n. unfold train. subst n. by rewrite zip_take_min. Qed.

(** X20: inference.  When the tagger answers with one label per feature
    vector, segmenting a text ends normally: no sentence is empty, each is
    a contiguous substring of the text, and together, in order, they are
    the characters whose label is not ['1']. *)
Theorem segment_ends_normally (text : str) (features : list (list str))
    (labels : list str) :
  sent2features lower isupper isnumeric text = Ok features →
  tag features = Ok labels →
  length labels = length features →
  ∃ sentences,
    segment lower isupper isnumeric tag text = Ok (sentences, None) ∧
    Forall (λ s, s ≠ [] ∧ occurs s text) sentences ∧
    concat sentences = kept text labels.
Proof.
  intros Hf Ht Hlen. unfold segment. rewrite Hf. simpl. rewrite Ht. simpl.
  destruct (sent2features_length lower isupper isnumeric text)
    as (features' & Hf' & Hlen').
  assert (features' = features) as -> by congruence.
  assert (length text = length labels) as Hl by congruence.
  exists (text2sentences text labels).1. split; [|split].
  - unfold text2sentences. by rewrite (loop_pieces text labels []).
  - apply Forall_and. split.
    + apply loop_nonempty.
    + by apply (loop_occurs text [] [] text).
  - unfold text2sentences. by rewrite loop_concat.
Qed.


End PipelineFacts.

Lemma get_train_data_pairs_witness :
  let callee : splitter unit := λ X y _, Ok (X, [], y, []) in
  let corpus := [Document (u "ab b") [u "ab"]; Document (u "c") []] in
  ∃ X y,
    get_train_data AsciiDb.lower AsciiDb.isupper AsciiDb.isnumeric unit
      (Some callee) corpus tt = callee X y tt ∧
    length X = length corpus ∧ length y = length corpus ∧
    ∀ i d, corpus !! i = Some d →
      ∃ features labels,
        X !! i = Some features ∧ y !! i = Some labels ∧
        sent2features AsciiDb.lower AsciiDb.isupper AsciiDb.isnumeric (raw d)
        = Ok features ∧
        text2labels (raw d) (raw_sents d) = Ok labels.
Proof.
  intros callee corpus.
  apply (get_train_data_pairs AsciiDb.lower AsciiDb.isupper AsciiDb.isnumeric
           unit callee corpus tt).
  reflexivity.
Defined.

Lemma get_train_data_aborts_witness :
  get_train_data AsciiDb.lower AsciiDb.isupper AsciiDb.isnumeric unit
    (Some (λ X y _, Ok (X, [], y, [])))
    [Document (u "ab") [u "ab"]; Document (u "abc") [u "xyz"]; Document (u "c") []]
    tt
  = Raise ValueError.
Proof. apply get_train_data_aborts. reflexivity. Defined.

Lemma segment_ends_normally_witness :
  let tag : list (list (list N)) → result (list (list N)) :=
    λ features, Ok (replicate (length features) IN_SENTENCE) in
  ∃ sentences,
    segment AsciiDb.lower AsciiDb.isupper AsciiDb.isnumeric tag (u "ab")
    = Ok (sentences, None) ∧
    Forall (λ s, s ≠ [] ∧ occurs s (u "ab")) sentences ∧
    concat sentences = kept (u "ab") [IN_SENTENCE; IN_SENTENCE].
Proof.
  intros tag.
  destruct (sent2features_length AsciiDb.lower AsciiDb.isupper AsciiDb.isnumeric
              (u "ab")) as (features & Hf & Hlen).
  apply (segment_ends_normally AsciiDb.lower AsciiDb.isupper AsciiDb.isnumeric
           tag (u "ab") features [IN_SENTENCE; IN_SENTENCE] Hf).
  - unfold tag. by rewrite Hlen.
  - by rewrite Hlen.
Defined.


Lemma append_all_recorded (crf : Recording.trainer)
    (pairs : list (list (list (list N)) * list (list N))) :
  append_all Recording.trainer Recording.append crf pairs
  = Ok (crf ++ ((λ xy, Recording.Append xy.1 xy.2) <$> pairs)).
Proof.
  revert crf. induction pairs as [|[xseq yseq] pairs IH]; intros crf.
  - by rewrite app_nil_r.
  - rewrite fmap_cons. etrans; [apply (IH (crf ++ [Recording.Append xseq yseq]))|].
    by rewrite <- app_assoc.
Qed.

(** X22: the calls [train] makes on the trainer, in order: [set_params]
    with the fixed parameters, one [append] per pair of
    [zip(X_train, y_train)] in list order, then one [train] on
    [model_name]; nothing of the test sets is submitted. *)
Theorem train_calls (X_train X_test : list (list (list (list N))))
    (y_train y_test : list (list (list N))) :
  train Recording.trainer Recording.Trainer Recording.set_params
        Recording.append Recording.train_model unit
        X_train X_test y_train y_test tt
  = Ok ([Recording.SetParams train_params]
        ++ ((λ xy, Recording.Append xy.1 xy.2) <$> zip X_train y_train)
        ++ [Recording.Train model_name]).
Proof.
  unfold train, Recording.Trainer. cbn [mbind result_bind].
  unfold Recording.set_params at 1. cbn [mbind result_bind].
  rewrite append_all_recorded. cbn [mbind result_bind].
  unfold Recording.train_model. cbn [mbind result_bind].
  by rewrite <- app_assoc.
Qed.
